(** * Proyecto-IA-terminal: a shallow embedding of [index.js]

    The program is an interactive assistant: it collects the text files of
    the working directory into one context string ([getProjectContext]), sends
    a request to a remote chat service, parses the reply into a target path
    and a code block ([parseAIResponse]), previews it ([showDiff]) and, on
    confirmation, writes the file or copies it to the clipboard ([main]).

    JavaScript strings are sequences of UTF-16 code units; they are modelled
    as [list N].  The file system, the clipboard, the console and the browser
    handle are fields of an explicit [World] record threaded through the
    handlers of [main]. *)

From Stdlib Require Import NArith ZArith Ascii String Lia.
From stdpp Require Import gmap list strings.

Abbreviation jsstring := (list N).

(** ** JavaScript strings and the built-ins the program calls *)
Module JS.

(** Decoding of the UTF-8 bytes of a Rocq string literal into UTF-16 code
    units, so that the literals of the source can be written as they are. *)
Definition surrogates (cp : N) : jsstring :=
  if (cp <? 65536)%N then [cp]
  else [(55296 + (cp - 65536) / 1024)%N; (56320 + (cp - 65536) mod 1024)%N].

Fixpoint utf8_decode (fuel : nat) (bs : list N) : jsstring :=
  match fuel with
  | O => []
  | S fuel' =>
    match bs with
    | [] => []
    | b0 :: r0 =>
      if (b0 <? 128)%N then b0 :: utf8_decode fuel' r0
      else if (b0 <? 224)%N then
        match r0 with
        | b1 :: r1 =>
          surrogates ((b0 mod 32) * 64 + b1 mod 64)%N ++ utf8_decode fuel' r1
        | _ => []
        end
      else if (b0 <? 240)%N then
        match r0 with
        | b1 :: b2 :: r2 =>
          surrogates ((b0 mod 16) * 4096 + (b1 mod 64) * 64 + b2 mod 64)%N
            ++ utf8_decode fuel' r2
        | _ => []
        end
      else
        match r0 with
        | b1 :: b2 :: b3 :: r3 =>
          surrogates ((b0 mod 8) * 262144 + (b1 mod 64) * 4096
                      + (b2 mod 64) * 64 + b3 mod 64)%N
            ++ utf8_decode fuel' r3
        | _ => []
        end
    end
  end.

Definition js (s : string) : jsstring :=
  let bs := map N_of_ascii (list_ascii_of_string s) in
  utf8_decode (length bs) bs.
Arguments js _%_string.

(** Line feed, the only code unit the program's patterns name directly. *)
Definition LF : N := 10%N.

(** WhiteSpace and LineTerminator of ECMAScript: the class [\s] of regular
    expressions and the code units removed by [String.prototype.trim]. *)
Definition is_space (c : N) : bool :=
  ((9 <=? c) && (c <=? 13) || (c =? 32) || (c =? 160) || (c =? 5760)
   || (8192 <=? c) && (c <=? 8202) || (c =? 8232) || (c =? 8233)
   || (c =? 8239) || (c =? 8287) || (c =? 12288) || (c =? 65279))%N.

(** The class [\w]: [A-Za-z0-9_]. *)
Definition is_word (c : N) : bool :=
  ((48 <=? c) && (c <=? 57) || (65 <=? c) && (c <=? 90) || (c =? 95)
   || (97 <=? c) && (c <=? 122))%N.

(** The class [[^\n]]. *)
Definition not_LF (c : N) : bool := negb (c =? LF)%N.

(** The class [[\s\S]]: every code unit. *)
Definition any_unit (c : N) : bool := is_space c || negb (is_space c).

Fixpoint drop_while (p : N -> bool) (s : jsstring) : jsstring :=
  match s with
  | c :: s' => if p c then drop_while p s' else s
  | [] => []
  end.

Fixpoint take_while (p : N -> bool) (s : jsstring) : jsstring :=
  match s with
  | c :: s' => if p c then c :: take_while p s' else []
  | [] => []
  end.

(** [String.prototype.trim]. *)
Definition trimStart (s : jsstring) : jsstring := drop_while is_space s.
Definition trimEnd (s : jsstring) : jsstring :=
  reverse (drop_while is_space (reverse s)).
Definition trim (s : jsstring) : jsstring := trimEnd (trimStart s).

(** [s === t] on strings. *)
Definition str_eqb (s t : jsstring) : bool := bool_decide (s = t).

(** [String.prototype.split('\n')]: the pieces between line feeds; the
    empty string gives one empty piece. *)
Fixpoint split_LF (s : jsstring) : list jsstring :=
  match s with
  | [] => [[]]
  | c :: s' =>
    if (c =? LF)%N then [] :: split_LF s'
    else match split_LF s' with
         | l :: ls => (c :: l) :: ls
         | [] => [[c]]
         end
  end.

(** [Array.prototype.join(sep)]. *)
Fixpoint join (sep : jsstring) (ls : list jsstring) : jsstring :=
  match ls with
  | [] => []
  | [l] => l
  | l :: ls' => l ++ sep ++ join sep ls'
  end.

(** [String.prototype.repeat]. *)
Definition repeat_str (s : jsstring) (n : nat) : jsstring :=
  concat (replicate n s).

(** Decimal rendering of a non-negative integer, as a template literal
    renders a number. *)
Fixpoint digits (fuel : nat) (n : N) (acc : jsstring) : jsstring :=
  match fuel with
  | O => acc
  | S fuel' =>
    let acc' := (48 + n mod 10)%N :: acc in
    if (n <? 10)%N then acc' else digits fuel' (n / 10)%N acc'
  end.

Definition number_to_string (n : nat) : jsstring :=
  digits (S n) (N.of_nat n) [].

(** A lower-casing of code units that agrees with
    [String.prototype.toLowerCase] on Basic Latin and Latin-1; the
    development is parametric in the lower-casing function and uses this
    one only to evaluate examples. *)
Definition lower_unit (c : N) : N :=
  if ((65 <=? c) && (c <=? 90)
      || (192 <=? c) && (c <=? 222) && negb (c =? 215))%N
  then (c + 32)%N else c.

Definition lower_latin1 (s : jsstring) : jsstring := map lower_unit s.

End JS.

Import JS.

(** ** Backtracking matchers for the two regular expressions *)
Module Regex.

(** A matcher consumes a prefix of the input and passes the rest to its
    continuation; the continuation answering [None] makes it backtrack. *)
Definition cont (R : Type) := jsstring -> option R.

(** Canonicalisation of the [i] flag, for patterns made of Basic Latin
    characters: a code unit matches such a pattern character when their
    upper-case forms are equal, and no code unit outside Basic Latin
    canonicalises into it. *)
Definition canonicalize (c : N) : N :=
  if ((97 <=? c) && (c <=? 122))%N then (c - 32)%N else c.

Definition same_unit (p c : N) : bool := (p =? c)%N.
Definition same_unit_ci (p c : N) : bool :=
  (canonicalize p =? canonicalize c)%N.

(** A literal sequence of pattern characters. *)
Fixpoint lit {R} (eqc : N -> N -> bool) (pat : jsstring) (k : cont R)
    (s : jsstring) : option R :=
  match pat with
  | [] => k s
  | p :: pat' =>
    match s with
    | c :: s' => if eqc p c then lit eqc pat' k s' else None
    | [] => None
    end
  end.

(** [cls*], greedy: the longest run first, then shorter ones. *)
Fixpoint star_greedy {R} (cls : N -> bool) (k : cont R) (s : jsstring)
    : option R :=
  match s with
  | c :: s' =>
    if cls c then
      match star_greedy cls k s' with
      | Some r => Some r
      | None => k s
      end
    else k s
  | [] => k []
  end.

(** [cls*?], lazy: the empty run first, then longer ones. *)
Fixpoint star_lazy {R} (cls : N -> bool) (k : cont R) (s : jsstring)
    : option R :=
  match k s with
  | Some r => Some r
  | None =>
    match s with
    | c :: s' => if cls c then star_lazy cls k s' else None
    | [] => None
    end
  end.

(** [cls+], greedy. *)
Definition plus_greedy {R} (cls : N -> bool) (k : cont R) (s : jsstring)
    : option R :=
  match s with
  | c :: s' => if cls c then star_greedy cls k s' else None
  | [] => None
  end.

(** A capture group: the continuation receives what [m] consumed. *)
Definition group {R} (m : cont R -> cont R) (k : jsstring -> cont R)
    (s : jsstring) : option R :=
  m (fun rest => k (take (length s - length rest) s) rest) s.

(** The end of the pattern: the match succeeds with capture group 1. *)
Definition accept (cap : jsstring) : cont jsstring := fun _ => Some cap.

(** [String.prototype.match] with a pattern without the [g] flag: the first
    start index, from the left, at which the pattern matches. *)
Fixpoint exec {R} (m : cont R) (s : jsstring) : option R :=
  match m s with
  | Some r => Some r
  | None =>
    match s with
    | _ :: s' => exec m s'
    | [] => None
    end
  end.

End Regex.

(** ** The response parser *)
Module Parser.
Import Regex.

Record ParsedEdit := mkParsedEdit {
  filePath : jsstring;
  codeBlock : jsstring
}.

(** [/ARCHIVO:\s*([^\n]+)/i], anchored at the start of its argument. *)
Definition fileRegex : cont jsstring :=
  lit same_unit_ci (js "ARCHIVO:")
    (star_greedy is_space
      (group (plus_greedy not_LF) accept)).

(** [/```[\w]*\n([\s\S]*?)\n```/], anchored at the start of its argument. *)
Definition codeBlockRegex : cont jsstring :=
  lit same_unit (js "```")
    (star_greedy is_word
      (lit same_unit [LF]
        (group (star_lazy any_unit)
          (fun cap => lit same_unit (LF :: js "```") (accept cap))))).

Definition parseAIResponse (response : jsstring) : option ParsedEdit :=
  match exec fileRegex response with
  | None => None
  | Some fileMatch1 =>
    let filePath := trim fileMatch1 in
    match exec codeBlockRegex response with
    | None => None
    | Some codeMatch1 =>
      Some {| filePath := filePath; codeBlock := codeMatch1 |}
    end
  end.

(** The warning [parseAIResponse] writes when it returns [null]. *)
Definition parseAIResponse_console (response : jsstring) : list jsstring :=
  match exec fileRegex response with
  | None => [js "⚠️  No se encontró el patrón ARCHIVO: en la respuesta"]
  | Some _ =>
    match exec codeBlockRegex response with
    | None => [js "⚠️  No se encontró bloque de código en la respuesta"]
    | Some _ => []
    end
  end.

End Parser.

Import Parser.

(** ** The project context collector *)
Module Collector.

(** What the file system answers.  An [entry] is what [fs.stat] and
    [fs.readFile] say about one name: [File (Some content)] is a regular
    file whose [readFile(.., 'utf8')] returns [content], [File None] a
    regular file whose [readFile] throws (no permission, an I/O error),
    [Other] an entry that is neither a regular file nor a directory,
    [Inaccessible] an entry whose [stat] throws.  Decoding as UTF-8 does
    not throw: bytes that are not valid UTF-8 are replaced, and the file is
    a [File (Some content)] like any other.  A [listing]
    is what [fs.readdir] says about a directory: its entries in the order
    they are returned, or the message of the error it throws. *)
Inductive entry :=
| File (read : option jsstring)
| Directory (sub : listing)
| Other
| Inaccessible
with listing :=
| Listed (items : list (jsstring * entry))
| ReaddirFails (message : jsstring).

Definition ignoredItems : list jsstring :=
  [ js "node_modules"; js ".git"; js ".vscode"; js ".DS_Store";
    js "package-lock.json"; js "yarn.lock"; js "index.js"; js ".env";
    js "dist"; js "build"; js "coverage" ].

Definition ignoredExtensions : list jsstring :=
  [ js ".exe"; js ".dll"; js ".so"; js ".dylib";
    js ".jpg"; js ".jpeg"; js ".png"; js ".gif"; js ".bmp"; js ".ico";
    js ".mp3"; js ".mp4"; js ".avi"; js ".mov";
    js ".zip"; js ".rar"; js ".tar"; js ".gz";
    js ".pdf"; js ".doc"; js ".docx" ].

(** [Array.prototype.includes] on an array of strings. *)
Definition includes (l : list jsstring) (x : jsstring) : bool :=
  bool_decide (x ∈ l).

(** [path.join(dirPath, item)] for a directory path without a trailing
    separator and an entry name returned by [readdir].  The root [/] has
    one, and [path.join] does not double it; the relative paths of the walk
    are the same there, the full paths are not. *)
Definition path_join (dirPath item : jsstring) : jsstring :=
  dirPath ++ js "/" ++ item.

(** [path.relative(basePath, fullPath)] for a [fullPath] below
    [basePath]: what follows the base and its separator. *)
Definition path_relative (basePath fullPath : jsstring) : jsstring :=
  drop (S (length basePath)) fullPath.

(** [path.extname] on an entry name: from the last dot to the end; empty
    when there is no dot, when the only dot is the first character, and
    for the name [..]. *)
Fixpoint from_last_dot (s : jsstring) : option jsstring :=
  match s with
  | [] => None
  | c :: s' =>
    match from_last_dot s' with
    | Some e => Some e
    | None => if (c =? 46)%N then Some s else None
    end
  end.

Definition extname (name : jsstring) : jsstring :=
  match name with
  | [] => []
  | _ :: rest =>
    match from_last_dot rest with
    | Some ext => if str_eqb name (js "..") then [] else ext
    | None => []
    end
  end.

Definition file_header (relativePath : jsstring) : jsstring :=
  js "--- INICIO ARCHIVO: " ++ relativePath ++ js " ---" ++ [LF].

Definition file_footer (relativePath : jsstring) : jsstring :=
  [LF] ++ js "--- FIN ARCHIVO: " ++ relativePath ++ js " ---" ++ [LF; LF].

Definition warn_unreadable (relativePath : jsstring) : jsstring :=
  js "⚠️  Ignorando archivo ilegible: " ++ relativePath.

Definition warn_no_access (relativePath : jsstring) : jsstring :=
  js "⚠️  No se puede acceder a: " ++ relativePath.

(** The line of [console.error] for a directory that cannot be listed.
    The text with the path is the format argument of [console.error], the
    message its second argument: the line is as below when the path holds
    no [%] directive. *)
Definition error_readdir (dirPath message : jsstring) : jsstring :=
  js "❌ Error al leer directorio " ++ dirPath ++ js ": " ++ message.

Section WithLowerCase.
Variable toLowerCase : jsstring -> jsstring.

(** One iteration of the [for (const item of items)] loop; [recur] is
    the recursive call on a subdirectory. *)
Definition visit (recur : listing -> jsstring -> jsstring * list jsstring)
    (dirPath basePath : jsstring)
    (acc : jsstring * list jsstring) (it : jsstring * entry)
    : jsstring * list jsstring :=
  let '(context, console) := acc in
  let '(item, e) := it in
  let fullPath := path_join dirPath item in
  let relativePath := path_relative basePath fullPath in
  if includes ignoredItems item then acc
  else
    match e with
    | Inaccessible =>
      (context, console ++ [warn_no_access relativePath])
    | Directory sub =>
      let '(subContext, subConsole) := recur sub fullPath in
      (context ++ subContext, console ++ subConsole)
    | File read =>
      let ext := toLowerCase (extname item) in
      if includes ignoredExtensions ext then acc
      else
        match read with
        | Some content =>
          (context ++ file_header relativePath ++ content
             ++ file_footer relativePath, console)
        | None =>
          (context, console ++ [warn_unreadable relativePath])
        end
    | Other => acc
    end.

(** [getProjectContext(dirPath, basePath)], given what [readdir(dirPath)]
    answers.  The result is the returned context and the lines written
    to the console. *)
Fixpoint getProjectContext (dir : listing) (dirPath basePath : jsstring)
    {struct dir} : jsstring * list jsstring :=
  match dir with
  | Listed items =>
    fold_left
      (visit (fun sub fullPath => getProjectContext sub fullPath basePath)
             dirPath basePath)
      items ([], [])
  | ReaddirFails message => ([], [error_readdir dirPath message])
  end.

(** What one entry contributes to the context and to the console. *)
Definition contribution (dirPath basePath : jsstring)
    (it : jsstring * entry) : jsstring * list jsstring :=
  visit (fun sub fullPath => getProjectContext sub fullPath basePath)
        dirPath basePath ([], []) it.

(** The specification's view of the walk: the files it includes, in
    depth-first order, each with the names that lead to it from the root
    and its text.  A subdirectory contributes all its files at its own
    position in the listing. *)
Fixpoint included (dir : listing) : list (list jsstring * jsstring) :=
  match dir with
  | Listed items =>
    flat_map
      (fun it : jsstring * entry =>
         if includes ignoredItems it.1 then []
         else
           match it.2 with
           | File (Some content) =>
             if includes ignoredExtensions (toLowerCase (extname it.1))
             then []
             else [([it.1], content)]
           | Directory sub =>
             map (fun f : list jsstring * jsstring => (it.1 :: f.1, f.2))
                 (included sub)
           | _ => []
           end)
      items
  | ReaddirFails _ => []
  end.

End WithLowerCase.

(** An entry name the walk does not skip. *)
Definition kept (name : jsstring) : Prop := name ∉ ignoredItems.

(** A file name whose extension the walk does not skip. *)
Definition text_name (toLowerCase : jsstring -> jsstring)
    (name : jsstring) : Prop :=
  toLowerCase (extname name) ∉ ignoredExtensions.

(** The names of an included file, seen from a directory [prefix] below
    the base. *)
Definition below (prefix : list jsstring)
    (f : list jsstring * jsstring) : list jsstring * jsstring :=
  (prefix ++ f.1, f.2).

(** The relative path of an entry, from the names that lead to it. *)
Definition relative (names : list jsstring) : jsstring :=
  join (js "/") names.

(** What the walk appends for one included file. *)
Definition block (f : list jsstring * jsstring) : jsstring :=
  file_header (relative f.1) ++ f.2 ++ file_footer (relative f.1).

(** [reaches dir names e]: from the listing [dir], the names [names] lead
    through listed subdirectories to the entry [e]. *)
Inductive reaches : listing -> list jsstring -> entry -> Prop :=
| reaches_item items name e :
    (name, e) ∈ items -> reaches (Listed items) [name] e
| reaches_sub items name sub names e :
    (name, Directory sub) ∈ items ->
    reaches sub names e ->
    reaches (Listed items) (name :: names) e.


(** The tree without the entries called [name], at every depth. *)
Fixpoint without_name (name : jsstring) (dir : listing) : listing :=
  match dir with
  | Listed items =>
    Listed
      (flat_map
         (fun it : jsstring * entry =>
            if str_eqb it.1 name then []
            else
              match it.2 with
              | Directory sub =>
                [(it.1, Directory (without_name name sub))]
              | e => [(it.1, e)]
              end)
         items)
  | ReaddirFails message => ReaddirFails message
  end.

End Collector.

Import Collector.

(** ** The preview presenter *)
Module Preview.

(** The [forEach((line, i) => console.log(`${i + 1}: ${line}`))] loop. *)
Definition numbered (lines : list jsstring) : list jsstring :=
  imap (fun i line => number_to_string (i + 1) ++ js ": " ++ line) lines.

(** The [if (lines.length > limit) console.log(...)] statement. *)
Definition omitted (limit : nat) (lines : list jsstring) : list jsstring :=
  if bool_decide (limit < length lines) then
    [js "... y " ++ number_to_string (length lines - limit)
        ++ js " líneas más"]
  else [].

(** [showDiff(oldContent, newContent)]: the texts passed to [console.log],
    one per call. *)
Definition showDiff (oldContent newContent : jsstring) : list jsstring :=
  let oldLines := split_LF oldContent in
  let newLines := split_LF newContent in
  [ [LF] ++ js "📋 COMPARACIÓN DE CAMBIOS:";
    repeat_str (js "=") 50;
    js "🔴 CONTENIDO ANTERIOR:";
    repeat_str (js "-") 30 ]
  ++ numbered (take 10 oldLines)
  ++ omitted 10 oldLines
  ++ [ [LF] ++ js "🟢 CONTENIDO NUEVO:";
       repeat_str (js "-") 30 ]
  ++ numbered (take 10 newLines)
  ++ omitted 10 newLines
  ++ [ repeat_str (js "=") 50 ].

(** The preview [main] prints when the target file does not exist. *)
Definition showNewFile (codeBlock : jsstring) : list jsstring :=
  [ [LF] ++ js "📋 CONTENIDO DEL NUEVO ARCHIVO:";
    repeat_str (js "-") 40;
    join [LF] (take 15 (split_LF codeBlock)) ]
  ++ omitted 15 (split_LF codeBlock)
  ++ [ repeat_str (js "-") 40 ].

(** [printed] shows the first [limit] of [lines], numbered from 1, and
    then the count of the lines left out, when there are any. *)
Definition shows_first (limit : nat) (lines printed : list jsstring)
    : Prop :=
  exists shown rest,
    printed = shown ++ rest
    /\ length shown = Nat.min limit (length lines)
    /\ (forall i line,
          shown !! i = Some (number_to_string (i + 1) ++ js ": " ++ line)
          <-> i < limit /\ lines !! i = Some line)
    /\ (length lines <= limit -> rest = [])
    /\ (limit < length lines ->
        rest = [js "... y " ++ number_to_string (length lines - limit)
                  ++ js " líneas más"]).

End Preview.

Import Preview.

(** ** The read-eval-print loop of [main] *)
Module Repl.

(** The state a handler of [main] acts on.  A handler is followed from
    its start to its end, its awaits resolved in order, with nothing else
    scheduled in between; [browser.close()] is taken to resolve.  How the
    lines typed by the user are shared between [rl] and the interface of
    the confirmation, which read the same [process.stdin], is not part of
    the state. *)
Record World := mkWorld {
  files : gmap jsstring jsstring;  (* readable regular files, by path *)
  directories : gset jsstring;     (* directories asked of [fs.mkdir] *)
  clipboard : option jsstring;     (* last text piped to a clipboard tool *)
  console : list jsstring;         (* texts written to the console *)
  prompts : nat;                   (* calls of [rl.prompt()] *)
  browser : bool;                  (* [main]'s variable [browser] is set *)
  browser_closes : nat;            (* calls of [browser.close()] *)
  exit_code : option Z             (* argument of [process.exit] *)
}.

(** What the environment answers, fixed for a run. *)
Record Env := mkEnv {
  cwd : jsstring;                             (* [process.cwd()] *)
  mkdir_error : jsstring -> option jsstring;  (* message when [mkdir] throws *)
  writeFile_error : jsstring -> option jsstring;
  pbcopy : bool;                              (* [spawn('pbcopy')] works *)
  xclip : bool                                (* [spawn('xclip')] works *)
}.

(** What one user request meets: the project tree the walk sees, the
    outcome of the remote call (a reply, or the message of the error
    [page.evaluate] rejects with) and the answer to the confirmation: the
    line handed to the callback of [confirmRl.question]. *)
Record Turn := mkTurn {
  project : listing;
  reply : jsstring -> jsstring + jsstring;
  answer : jsstring
}.

Definition log (line : jsstring) (w : World) : World :=
  mkWorld (files w) (directories w) (clipboard w) (console w ++ [line])
          (prompts w) (browser w) (browser_closes w) (exit_code w).

Definition logs (lines : list jsstring) (w : World) : World :=
  mkWorld (files w) (directories w) (clipboard w) (console w ++ lines)
          (prompts w) (browser w) (browser_closes w) (exit_code w).

(** [rl.prompt()]. *)
Definition prompt (w : World) : World :=
  mkWorld (files w) (directories w) (clipboard w) (console w)
          (S (prompts w)) (browser w) (browser_closes w) (exit_code w).

(** [await browser.close()]. *)
Definition browser_close (w : World) : World :=
  mkWorld (files w) (directories w) (clipboard w) (console w)
          (prompts w) (browser w) (S (browser_closes w)) (exit_code w).

(** [process.exit(code)]: the first call ends the process. *)
Definition exit (code : Z) (w : World) : World :=
  mkWorld (files w) (directories w) (clipboard w) (console w)
          (prompts w) (browser w) (browser_closes w)
          (match exit_code w with Some c => Some c | None => Some code end).

(** [path.dirname]: trailing separators and the last component are
    dropped; [.] or [/] when no separator is left. *)
Definition is_slash (c : N) : bool := (c =? 47)%N.

Definition dirname (p : jsstring) : jsstring :=
  match p with
  | [] => js "."
  | c0 :: rest =>
    let scanned :=
      drop_while (fun c => negb (is_slash c))
                 (drop_while is_slash (reverse rest)) in
    match scanned with
    | [] => if is_slash c0 then js "/" else js "."
    | _ =>
      let last := length scanned in
      if is_slash c0 && bool_decide (last = 1) then js "//"
      else take last p
    end
  end.

Definition mkdir (dir : jsstring) (w : World) : World :=
  mkWorld (files w) ({[dir]} ∪ directories w) (clipboard w) (console w)
          (prompts w) (browser w) (browser_closes w) (exit_code w).

Definition writeFile (path data : jsstring) (w : World) : World :=
  mkWorld (<[path := data]> (files w)) (directories w) (clipboard w)
          (console w) (prompts w) (browser w) (browser_closes w)
          (exit_code w).

Definition pipe_to_clipboard (text : jsstring) (w : World) : World :=
  mkWorld (files w) (directories w) (Some text) (console w)
          (prompts w) (browser w) (browser_closes w) (exit_code w).

Section WithEnv.
Variable toLowerCase : jsstring -> jsstring.
Variable env : Env.

(** [copyToClipboard(text)]: [pbcopy], then [xclip], then a warning.  The
    console line is that of the listener that settles the promise; a
    [close] event that follows the [error] of a tool is not followed. *)
Definition copyToClipboard (text : jsstring) (w : World) : World :=
  if pbcopy env then
    log (js "📋 Código copiado al portapapeles") (pipe_to_clipboard text w)
  else if xclip env then
    log (js "📋 Código copiado al portapapeles") (pipe_to_clipboard text w)
  else
    log (js "⚠️  No se pudo copiar al portapapeles automáticamente") w.

(** The branch of the confirmation that applies the edit.  A [mkdir] or
    a [writeFile] that throws is taken to have left the store as it found
    it; [mkdir], called with [recursive], is recorded for [dir] alone. *)
Definition applyEdit (fileExists : bool) (edit : ParsedEdit) (w : World)
    : World :=
  let dir := dirname (filePath edit) in
  match mkdir_error env dir with
  | Some message =>
    log (js "❌ Error al escribir el archivo: " ++ message) w
  | None =>
    let w1 := mkdir dir w in
    match writeFile_error env (filePath edit) with
    | Some message =>
      log (js "❌ Error al escribir el archivo: " ++ message) w1
    | None =>
      log (js "✅ Archivo " ++ filePath edit ++ js " "
             ++ (if fileExists then js "modificado" else js "creado")
             ++ js " exitosamente")
          (writeFile (filePath edit) (codeBlock edit) w1)
    end
  end.

(** The callback of [confirmRl.question]. *)
Definition confirm (fileExists : bool) (edit : ParsedEdit)
    (answer : jsstring) (w : World) : World :=
  let response := trim (toLowerCase answer) in
  let w1 :=
    if str_eqb response (js "s") || str_eqb response (js "si")
       || str_eqb response (js "sí")
    then applyEdit fileExists edit w
    else if str_eqb response (js "c") || str_eqb response (js "copiar")
    then copyToClipboard (codeBlock edit) w
    else log (js "❌ Cambios cancelados") w in
  prompt w1.

(** The prompt sent to the remote model. *)
Definition megaPrompt (userInput projectContext : jsstring) : jsstring :=
  js "
Eres un experto programador senior con amplio conocimiento en múltiples lenguajes y frameworks.

PETICIÓN DEL USUARIO:
" ++ userInput ++ js "

CONTEXTO COMPLETO DEL PROYECTO:
" ++ projectContext ++ js "

INSTRUCCIONES IMPORTANTES:
1. Analiza cuidadosamente la petición del usuario y el contexto del proyecto
2. Proporciona una solución completa y funcional
3. Si necesitas crear un nuevo archivo, especifica la ruta completa
4. Si necesitas modificar un archivo existente, proporciona el contenido completo actualizado
5. Sigue las mejores prácticas de programación y mantén la consistencia con el estilo existente

FORMATO DE RESPUESTA OBLIGATORIO:
Debes responder EXACTAMENTE en este formato:

ARCHIVO: [ruta/del/archivo.extension]
```[lenguaje]
[código completo del archivo]
```

EXPLICACIÓN:
[breve explicación de los cambios realizados]

Es CRÍTICO que sigas este formato exacto para que el sistema pueda procesar tu respuesta correctamente.
".

(** [askAI(page, prompt)]: the reply, or the rethrown error. *)
Definition askAI (remote : jsstring -> jsstring + jsstring)
    (prompt : jsstring) (w : World) : (jsstring + jsstring) * World :=
  let w1 := log (js "🧠 Consultando a la IA...") w in
  match remote prompt with
  | inl response => (inl response, log (js "✅ Respuesta de IA recibida") w1)
  | inr message =>
    (inr message, log (js "❌ Error al consultar la IA: " ++ message) w1)
  end.

(** The listener of the [close] event of [rl]. *)
Definition on_close (w : World) : World :=
  let w1 := log ([LF] ++ js "🔄 Cerrando herramienta...") w in
  let w2 :=
    if browser w1 then
      log (js "✅ Navegador cerrado correctamente") (browser_close w1)
    else w1 in
  exit 0 w2.

(** The preview of a parsed edit and the confirmation question. *)
Definition previewAndConfirm (edit : ParsedEdit) (answer : jsstring)
    (w : World) : World :=
  let w1 :=
    log ([LF] ++ js "📄 Archivo a modificar: " ++ filePath edit) w in
  match files w1 !! filePath edit with
  | Some oldContent =>
    confirm true edit answer (logs (showDiff oldContent (codeBlock edit)) w1)
  | None =>
    confirm false edit answer
      (logs (showNewFile (codeBlock edit))
            (log (js "📝 Archivo nuevo (no existe actualmente)") w1))
  end.

(** The listener of the [line] event of [rl]. *)
Definition on_line (input : jsstring) (t : Turn) (w : World) : World :=
  let userInput := trim input in
  if str_eqb (toLowerCase userInput) (js "salir")
     || str_eqb (toLowerCase userInput) (js "exit")
  then on_close (log (js "👋 ¡Hasta luego!") w)
  else if str_eqb userInput [] then prompt w
  else
    let w1 := log ([LF] ++ js "🔍 Analizando proyecto...") w in
    let '(projectContext, walked) :=
      getProjectContext toLowerCase (project t) (cwd env) (cwd env) in
    let w2 := logs walked w1 in
    match askAI (reply t) (megaPrompt userInput projectContext) w2 with
    | (inr message, w3) =>
      prompt (log (js "❌ Error al procesar la petición: " ++ message) w3)
    | (inl aiResponse, w3) =>
      match parseAIResponse aiResponse with
      | None =>
        prompt
          (log (js "❌ No se pudo procesar la respuesta de la IA. Intenta reformular tu petición.")
               (logs (parseAIResponse_console aiResponse) w3))
      | Some parsedResponse =>
        previewAndConfirm parsedResponse (answer t) w3
      end
    end.

(** A line is an exit token when its trimmed, lower-cased text is
    [salir] or [exit]. *)
Definition exit_token (input : jsstring) : Prop :=
  toLowerCase (trim input) = js "salir"
  \/ toLowerCase (trim input) = js "exit".

(** A line is a request when it is neither an exit token nor blank. *)
Definition request (input : jsstring) : Prop :=
  ~ exit_token input /\ trim input <> [].

End WithEnv.

(** What a handler leaves alone. *)
Definition same_store (w w' : World) : Prop :=
  files w' = files w /\ directories w' = directories w
  /\ clipboard w' = clipboard w.

Definition same_process (w w' : World) : Prop :=
  browser w' = browser w /\ browser_closes w' = browser_closes w
  /\ exit_code w' = exit_code w.

End Repl.

Import Repl.

(** The world in which the program starts. *)
Definition fresh (fs : gmap jsstring jsstring) : World :=
  mkWorld fs ∅ None [] 0 false 0 None.

(** ** Vocabulary of the statements about the parser *)

(** Equality of a code unit with a Basic Latin pattern character, up to
    the case of letters. *)
Definition same_letter (p c : N) : Prop :=
  c = p \/ ((65 <= p)%N /\ (p <= 90)%N /\ c = (p + 32)%N).

(** [l] spells the label [ARCHIVO:] in some mix of cases. *)
Definition is_label (l : jsstring) : Prop :=
  Forall2 same_letter (js "ARCHIVO:") l.

(** The text starts with the label. *)
Definition label_at (s : jsstring) : Prop :=
  exists l rest, s = l ++ rest /\ is_label l.

(** The text starts with an opening fence: three backquotes, a language
    tag of word characters that may be empty, a line feed. *)
Definition fence_open_at (s : jsstring) : Prop :=
  exists tag rest,
    s = js "```" ++ tag ++ [LF] ++ rest
    /\ Forall (fun c => is_word c = true) tag.

(** The text starts with a closing fence: a line feed and three
    backquotes. *)
Definition fence_close_at (s : jsstring) : Prop :=
  exists rest, s = [LF] ++ js "```" ++ rest.

(** The text starts with a whole fenced block. *)
Definition fenced_block_at (s : jsstring) : Prop :=
  exists tag body rest,
    s = js "```" ++ tag ++ [LF] ++ body ++ [LF] ++ js "```" ++ rest
    /\ Forall (fun c => is_word c = true) tag.

(** Boolean tests of the three prefixes, to evaluate them on examples. *)
Definition accepts (m : Regex.cont unit -> Regex.cont unit) (s : jsstring)
    : bool :=
  match m (fun _ => Some tt) s with Some _ => true | None => false end.

Definition label_atb : jsstring -> bool :=
  accepts (Regex.lit Regex.same_unit_ci (js "ARCHIVO:")).

Definition fence_open_atb : jsstring -> bool :=
  accepts (fun k =>
    Regex.lit Regex.same_unit (js "```")
      (Regex.star_greedy is_word (Regex.lit Regex.same_unit [LF] k))).

Definition fence_close_atb : jsstring -> bool :=
  accepts (Regex.lit Regex.same_unit (LF :: js "```")).

(** [none_before b n s]: the test [b] fails at every index below [n]. *)
Definition none_before (b : jsstring -> bool) (n : nat) (s : jsstring)
    : bool :=
  forallb (fun j => negb (b (drop j s))) (seq 0 n).

(** The first label of [response] is [l], after [pre], and [line] is the
    rest of its line. *)
Definition label_line (response pre l line post : jsstring) : Prop :=
  response = pre ++ l ++ line ++ post
  /\ is_label l
  /\ (forall j, j < length pre -> ~ label_at (drop j response))
  /\ (LF ∉ line)
  /\ (post = [] \/ exists post', post = LF :: post').

(** The first fenced block of [response] opens after [a] with language tag
    [tag]; [body] is its interior, up to the first closing fence. *)
Definition first_fenced_block (response a tag body z : jsstring) : Prop :=
  response = a ++ js "```" ++ tag ++ [LF] ++ body ++ [LF] ++ js "```" ++ z
  /\ Forall (fun c => is_word c = true) tag
  /\ (forall j, j < length a -> ~ fence_open_at (drop j response))
  /\ (forall j, j < length body ->
        ~ fence_close_at (drop j (body ++ [LF] ++ js "```" ++ z))).

(** The parser's contract as the specification words it: whenever the reply
    has a label line and a fenced block, the result holds the trimmed rest of
    the label line and the interior of the first block. *)
Definition label_line_contract : Prop :=
  forall response pre l line post a tag body z,
    label_line response pre l line post ->
    first_fenced_block response a tag body z ->
    parseAIResponse response
    = Some {| filePath := trim line; codeBlock := body |}.

(** The reply of the specification's example. *)
Definition example_reply : jsstring :=
  js "ARCHIVO: src/a.txt
```text
hello
```
EXPLICACIÓN: ...".

(** A reply whose label line is blank after the label. *)
Definition blank_label_reply : jsstring :=
  js "ARCHIVO:
```
x
```".

(** An environment in which directories and files can be written and
    [pbcopy] is installed. *)
Definition env_ok : Env :=
  mkEnv (js "/home/u/proyecto") (fun _ => None) (fun _ => None) true false.

(** The parsed edit of the specification's example. *)
Definition example_edit : ParsedEdit :=
  {| filePath := js "src/a.txt"; codeBlock := js "hello" |}.

(** A turn in an empty project whose remote call answers [response] and
    whose confirmation is answered [answer]. *)
Definition turn_of (response answer : jsstring) : Turn :=
  mkTurn (Listed []) (fun _ => inl response) answer.

(** A project tree with a skipped name at two depths, a skipped extension,
    an unreadable file, an inaccessible entry and a directory that cannot be
    listed. *)
Definition example_tree : listing :=
  Listed
    [ (js "a.txt", File (Some (js "hi")));
      (js "index.js", File (Some (js "no")));
      (js "src",
       Directory
         (Listed
            [ (js "b.PNG", File (Some (js "bin")));
              (js "c.js", File None);
              (js "d", Inaccessible);
              (js "e.md", File (Some (js "E")));
              (js "index.js",
               Directory (Listed [ (js "x.txt", File (Some (js "X"))) ])) ]));
      (js "locked", Directory (ReaddirFails (js "EACCES"))) ].

(** A code block of sixteen lines. *)
Definition sixteen_lines : jsstring :=
  join [LF] (replicate 16 (js "x")).

(** ** Vocabulary of the further properties *)

(** A reply in the format the prompt asks for: the label and the path on
    one line, the fenced code with its language tag, the explanation. *)
Definition format_reply (path lang code explanation : jsstring) : jsstring :=
  js "ARCHIVO: " ++ path ++ [LF] ++ js "```" ++ lang ++ [LF] ++ code
  ++ [LF] ++ js "```" ++ [LF; LF] ++ js "EXPLICACIÓN:" ++ [LF] ++ explanation.

(** The first label of [response] is [l], after [pre]; the white space
    [ws] follows it, on one line or several, and then the text [cap], which
    runs to the end of its line. *)
Definition label_then_text (response pre l ws cap post : jsstring) : Prop :=
  response = pre ++ l ++ ws ++ cap ++ post
  /\ is_label l
  /\ (forall j, j < length pre -> ~ label_at (drop j response))
  /\ Forall (fun c => is_space c = true) ws
  /\ (exists c cap', cap = c :: cap' /\ is_space c = false)
  /\ (LF ∉ cap)
  /\ (post = [] \/ exists post', post = LF :: post').

(** The first label of [response] is [l], after [pre], and only the white
    space [ws] follows it, to the end of the reply. *)
Definition label_then_blank (response pre l ws : jsstring) : Prop :=
  response = pre ++ l ++ ws
  /\ is_label l
  /\ (forall j, j < length pre -> ~ label_at (drop j response))
  /\ Forall (fun c => is_space c = true) ws.

(** The entries the walk passes over without reading them and without a
    word: those with an ignored name, the files with an ignored extension
    and the entries that are neither file nor directory. *)
Definition silently_skipped (toLowerCase : jsstring -> jsstring)
    (name : jsstring) (e : entry) : bool :=
  includes ignoredItems name
  || match e with
     | File _ => includes ignoredExtensions (toLowerCase (extname name))
     | Other => true
     | _ => false
     end.

(** The tree without the entries that [drop] selects, at every depth. *)
Fixpoint without_entries (drop : jsstring -> entry -> bool) (dir : listing)
    : listing :=
  match dir with
  | Listed items =>
    Listed
      (flat_map
         (fun it : jsstring * entry =>
            if drop it.1 it.2 then []
            else
              match it.2 with
              | Directory sub =>
                [(it.1, Directory (without_entries drop sub))]
              | e => [(it.1, e)]
              end)
         items)
  | ReaddirFails message => ReaddirFails message
  end.

(** A tree in which an unreadable image, a socket and an inaccessible
    entry under an ignored name stand beside a text file. *)
Definition noisy_tree : listing :=
  Listed
    [ (js "logo.PNG", File None);
      (js "sock", Other);
      (js ".git", Inaccessible);
      (js "docs",
       Directory
         (Listed [ (js "vault", Directory (ReaddirFails (js "EACCES")));
                   (js "a.md", File (Some (js "A"))) ])) ].


(** A turn in an empty project whose remote call fails with [message]. *)
Definition failing_turn (message : jsstring) : Turn :=
  mkTurn (Listed []) (fun _ => inr message) [].

(** A reply whose path is on the second line after the label. *)
Definition next_line_reply : jsstring :=
  js "ARCHIVO:

  src/b.js
```
x
```".

(** A reply that ends with the label and a space. *)
Definition trailing_label_reply : jsstring :=
  js "```
x
```
ARCHIVO: ".

(** * Properties *)

(** ** The model on small inputs *)

Example js_literals :
  js "sí" = [115; 237]%N /\ js "📋" = [55357; 56523]%N.
Proof. split; vm_compute; reflexivity. Qed.

Example number_to_string_examples :
  number_to_string 0 = js "0" /\ number_to_string 1005 = js "1005".
Proof. split; vm_compute; reflexivity. Qed.

Example extname_examples :
  extname (js "a.b.PNG") = js ".PNG" /\ extname (js ".env") = []
  /\ extname (js "Makefile") = [] /\ extname (js "a.") = js ".".
Proof. repeat split; vm_compute; reflexivity. Qed.

Example dirname_examples :
  dirname (js "src/a.txt") = js "src" /\ dirname (js "a.txt") = js "."
  /\ dirname (js "/a") = js "/" /\ dirname (js "a/b/") = js "a".
Proof. repeat split; vm_compute; reflexivity. Qed.

Example parseAIResponse_any_case :
  parseAIResponse (js "Lee esto.
archivo:   lib/x.js  
```js
let x;
```
```py
y
```")
  = Some {| filePath := js "lib/x.js"; codeBlock := js "let x;" |}.
Proof. vm_compute. reflexivity. Qed.

Example parseAIResponse_blank_label :
  parseAIResponse blank_label_reply
  = Some {| filePath := js "```"; codeBlock := js "x" |}.
Proof. vm_compute. reflexivity. Qed.

Example getProjectContext_example_tree :
  getProjectContext lower_latin1 example_tree (js "/p") (js "/p")
  = (file_header (js "a.txt") ++ js "hi" ++ file_footer (js "a.txt")
     ++ file_header (js "src/e.md") ++ js "E" ++ file_footer (js "src/e.md"),
     [ warn_unreadable (js "src/c.js"); warn_no_access (js "src/d");
       error_readdir (js "/p/locked") (js "EACCES") ]).
Proof. vm_compute. reflexivity. Qed.

(** ** The matchers *)
Section RegexFacts.
Import Regex.
Context {R : Type}.
Implicit Types (k : cont R) (s : jsstring).

Lemma exec_first k s i r :
  k (drop i s) = Some r ->
  (forall j, j < i -> k (drop j s) = None) ->
  exec k s = Some r.
Proof.
  revert i. induction s as [|c s IH]; intros i Hi Hlt.
  - rewrite drop_nil in Hi. simpl. by rewrite Hi.
  - destruct i as [|i].
    + simpl in *. by rewrite Hi.
    + pose proof (Hlt 0 ltac:(lia)) as H0. simpl in *. rewrite H0.
      apply (IH i); [done|].
      intros j Hj. apply (Hlt (S j)). lia.
Qed.

Lemma exec_Some k s r :
  exec k s = Some r -> exists i, i <= length s /\ k (drop i s) = Some r.
Proof.
  induction s as [|c s IH]; simpl.
  - destruct (k []) eqn:E; [|done]. intros [= <-]. exists 0. by split.
  - destruct (k (c :: s)) eqn:E.
    + intros [= <-]. exists 0. split; [lia|done].
    + intros H. destruct (IH H) as (i & Hi & Hk). exists (S i).
      split; [lia|done].
Qed.

Lemma exec_None k s :
  (forall i, k (drop i s) = None) -> exec k s = None.
Proof.
  intros H. destruct (exec k s) eqn:E; [|done].
  apply exec_Some in E as (i & _ & Hi). by rewrite H in Hi.
Qed.

Lemma lit_same_app pat k s : lit same_unit pat k (pat ++ s) = k s.
Proof.
  induction pat as [|p pat IH]; simpl; [done|].
  unfold same_unit at 1. by rewrite N.eqb_refl.
Qed.

Lemma lit_same_Some pat k s r :
  lit same_unit pat k s = Some r ->
  exists rest, s = pat ++ rest /\ k rest = Some r.
Proof.
  revert s. induction pat as [|p pat IH]; intros s; simpl.
  - intros H. by exists s.
  - destruct s as [|c s]; [done|]. unfold same_unit at 1.
    destruct (N.eqb_spec p c) as [->|]; [|done].
    intros H. destruct (IH _ H) as (rest & -> & Hk). by exists rest.
Qed.

Lemma lit_ci_app pat l k s :
  Forall2 (fun p c => same_unit_ci p c = true) pat l ->
  lit same_unit_ci pat k (l ++ s) = k s.
Proof.
  induction 1 as [|p c pat l Hpc _ IH]; simpl; [done|]. by rewrite Hpc.
Qed.

Lemma lit_ci_Some pat k s r :
  lit same_unit_ci pat k s = Some r ->
  exists l rest, s = l ++ rest
    /\ Forall2 (fun p c => same_unit_ci p c = true) pat l
    /\ k rest = Some r.
Proof.
  revert s. induction pat as [|p pat IH]; intros s; simpl.
  - intros H. exists [], s. by repeat split.
  - destruct s as [|c s]; [done|].
    destruct (same_unit_ci p c) eqn:E; [|done].
    intros H. destruct (IH _ H) as (l & rest & -> & Hl & Hk).
    exists (c :: l), rest. repeat split; [|done]. by constructor.
Qed.

Lemma star_greedy_Some cls k s r :
  star_greedy cls k s = Some r ->
  exists w rest, s = w ++ rest
    /\ Forall (fun c => cls c = true) w /\ k rest = Some r.
Proof.
  induction s as [|c s IH]; simpl.
  - intros H. exists [], []. by repeat split.
  - destruct (cls c) eqn:E.
    + destruct (star_greedy cls k s) eqn:E'.
      * intros [= <-]. destruct (IH eq_refl) as (w & rest & -> & Hw & Hk).
        exists (c :: w), rest. repeat split; [|done]. by constructor.
      * intros H. exists [], (c :: s). by repeat split.
    + intros H. exists [], (c :: s). by repeat split.
Qed.

(** The longest run is tried first: when the class stops at [rest] and
    the continuation accepts there, that is the match. *)
Lemma star_greedy_run cls k w rest r :
  Forall (fun c => cls c = true) w ->
  match rest with c :: _ => cls c = false | [] => True end ->
  k rest = Some r ->
  star_greedy cls k (w ++ rest) = Some r.
Proof.
  intros Hw Hstop Hk. induction Hw as [|c w Hc _ IH]; simpl.
  - destruct rest as [|c rest]; simpl; [done|]. by rewrite Hstop.
  - by rewrite Hc, IH.
Qed.

Lemma any_unit_true c : any_unit c = true.
Proof. unfold any_unit. by destruct (is_space c). Qed.

(** Over the class of all code units the lazy star is a search for the
    first suffix its continuation accepts. *)
Lemma star_lazy_any k s : star_lazy any_unit k s = exec k s.
Proof.
  induction s as [|c s IH]; simpl; [by destruct (k [])|].
  destruct (k (c :: s)); [done|]. by rewrite any_unit_true.
Qed.

End RegexFacts.

(** ** The response parser *)
Section ParserFacts.
Import Regex.

Lemma same_unit_ci_letter p c :
  (p < 97 \/ 122 < p)%N ->
  same_unit_ci p c = true <-> same_letter p c.
Proof.
  intros Hp. unfold same_unit_ci, same_letter, canonicalize.
  destruct (N.leb_spec 97 p), (N.leb_spec p 122), (N.leb_spec 97 c),
    (N.leb_spec c 122); simpl; rewrite N.eqb_eq; lia.
Qed.

Lemma is_label_ci l :
  is_label l <->
  Forall2 (fun p c => same_unit_ci p c = true) (js "ARCHIVO:") l.
Proof.
  unfold is_label.
  assert (Forall (fun p => (p < 97 \/ 122 < p)%N) (js "ARCHIVO:")) as Hpat.
  { vm_compute. repeat constructor; lia. }
  revert l Hpat. generalize (js "ARCHIVO:") as pat.
  induction pat as [|p pat IH]; intros l Hpat.
  - split; inversion 1; constructor.
  - inversion Hpat as [|? ? Hp Hpat']; subst.
    split; inversion 1; subst; constructor;
      try (by apply same_unit_ci_letter); by apply IH.
Qed.

Lemma fileRegex_label s r : fileRegex s = Some r -> label_at s.
Proof.
  unfold fileRegex. intros H.
  apply lit_ci_Some in H as (l & rest & -> & Hl & _).
  exists l, rest. split; [done|]. by apply is_label_ci.
Qed.

Lemma codeBlockRegex_block s r :
  codeBlockRegex s = Some r -> fenced_block_at s.
Proof.
  unfold codeBlockRegex. intros H.
  apply lit_same_Some in H as (s1 & -> & H).
  apply star_greedy_Some in H as (tag & s2 & -> & Htag & H).
  apply lit_same_Some in H as (s3 & -> & H).
  unfold group in H. rewrite star_lazy_any in H.
  apply exec_Some in H as (i & Hi & H).
  apply lit_same_Some in H as (s4 & Hs4 & _).
  exists tag, (take i s3), s4. split; [|done].
  rewrite <- (take_drop i s3) at 1. rewrite Hs4. done.
Qed.

Lemma codeBlockRegex_open s r :
  codeBlockRegex s = Some r -> fence_open_at s.
Proof.
  intros H. apply codeBlockRegex_block in H as (tag & body & rest & -> & Ht).
  by exists tag, (body ++ [LF] ++ js "```" ++ rest).
Qed.

End ParserFacts.

Section ParserTheorems.
Import Regex.

Lemma label_atb_complete s : label_at s -> label_atb s = true.
Proof.
  intros (l & rest & -> & Hl). unfold label_atb, accepts.
  by rewrite lit_ci_app by by apply is_label_ci.
Qed.

Lemma fence_open_atb_complete s : fence_open_at s -> fence_open_atb s = true.
Proof.
  intros (tag & rest & -> & Htag). unfold fence_open_atb, accepts.
  rewrite lit_same_app.
  by rewrite (star_greedy_run _ _ tag ([LF] ++ rest) tt).
Qed.

Lemma fence_close_atb_complete s :
  fence_close_at s -> fence_close_atb s = true.
Proof.
  intros (rest & ->). unfold fence_close_atb, accepts.
  change ([LF] ++ js "```" ++ rest) with ((LF :: js "```") ++ rest).
  by rewrite lit_same_app.
Qed.

Lemma none_before_spec (P : jsstring -> Prop) b n s :
  (forall t, P t -> b t = true) ->
  none_before b n s = true ->
  forall j, j < n -> ~ P (drop j s).
Proof.
  intros Hb Hn j Hj HP. unfold none_before in Hn.
  rewrite forallb_forall in Hn.
  specialize (Hn j). rewrite (Hb _ HP) in Hn.
  discriminate Hn. apply in_seq. lia.
Qed.

Lemma none_anywhere (P : jsstring -> Prop) b s :
  (forall t, P t -> b t = true) ->
  none_before b (S (length s)) s = true ->
  forall j, ~ P (drop j s).
Proof.
  intros Hb Hn j. destruct (decide (j < S (length s))) as [Hj|Hj].
  - by apply (none_before_spec P b (S (length s)) s).
  - rewrite drop_ge by lia. rewrite <- (drop_all s).
    apply (none_before_spec P b (S (length s)) s); [done|done|lia].
Qed.

Lemma drop_while_idem p s : drop_while p (drop_while p s) = drop_while p s.
Proof.
  induction s as [|c s IH]; simpl; [done|].
  destruct (p c) eqn:E; [done|]. simpl. by rewrite E.
Qed.

Lemma trim_drop_while s : trim (drop_while is_space s) = trim s.
Proof. unfold trim, trimStart. by rewrite drop_while_idem. Qed.

Lemma take_drop_while p s :
  s = take_while p s ++ drop_while p s
  /\ Forall (fun c => p c = true) (take_while p s)
  /\ match drop_while p s with c :: _ => p c = false | [] => True end.
Proof.
  induction s as [|c s (IH1 & IH2 & IH3)]; simpl; [done|].
  destruct (p c) eqn:E; simpl.
  - split; [by f_equal|]. split; [by constructor|done].
  - by rewrite E.
Qed.

Lemma drop_while_nonempty p s c :
  c ∈ s -> p c = false -> drop_while p s <> [].
Proof.
  induction 1 as [c s|c d s _ IH]; simpl; intros Hc.
  - by rewrite Hc.
  - destruct (p d); [by apply IH|done].
Qed.

Lemma drop_while_subseteq p s c : c ∈ drop_while p s -> c ∈ s.
Proof.
  induction s as [|d s IH]; simpl; [done|].
  destruct (p d); [|done]. intros H. right. by apply IH.
Qed.

(** The capture of [([^\n]+)] on a text that starts with a line. *)
Lemma capture_line cap post :
  cap <> [] -> LF ∉ cap ->
  (post = [] \/ exists post', post = LF :: post') ->
  group (plus_greedy not_LF) accept (cap ++ post) = Some cap.
Proof.
  intros Hne Hlf Hpost. destruct cap as [|c cap]; [done|].
  assert (Forall (fun c => not_LF c = true) (c :: cap)) as Hall.
  { apply Forall_forall. intros d Hd. unfold not_LF.
    destruct (N.eqb_spec d LF) as [->|]; [by destruct Hlf|done]. }
  inversion Hall as [|? ? Hc Hcap]; subst.
  unfold group, plus_greedy. simpl. rewrite Hc.
  erewrite star_greedy_run; [| done | | reflexivity].
  - unfold accept. f_equal. simpl. rewrite length_app.
    replace (S (length cap + length post) - length post)
      with (S (length cap)) by lia.
    simpl. f_equal. by rewrite take_app_length.
  - destruct Hpost as [->|[post' ->]]; [done|]. done.
Qed.

Lemma fileRegex_at l line post :
  is_label l -> LF ∉ line ->
  (post = [] \/ exists post', post = LF :: post') ->
  (exists c, c ∈ line /\ is_space c = false) ->
  fileRegex (l ++ line ++ post) = Some (drop_while is_space line).
Proof.
  intros Hl Hlf Hpost (c & Hc & Hsp). unfold fileRegex.
  rewrite lit_ci_app by by apply is_label_ci.
  destruct (take_drop_while is_space line) as (Hsplit & Hws & Hstop).
  rewrite Hsplit at 1. rewrite <- app_assoc.
  assert (drop_while is_space line <> []) as Hne
    by by eapply drop_while_nonempty.
  apply star_greedy_run; [done| |].
  - destruct (drop_while is_space line); [done|]. done.
  - apply capture_line; [done| |done].
    intros H. by apply Hlf, (drop_while_subseteq is_space).
Qed.

Lemma codeBlockRegex_at tag body z :
  Forall (fun c => is_word c = true) tag ->
  (forall j, j < length body ->
     ~ fence_close_at (drop j (body ++ [LF] ++ js "```" ++ z))) ->
  codeBlockRegex (js "```" ++ tag ++ [LF] ++ body ++ [LF] ++ js "```" ++ z)
  = Some body.
Proof.
  intros Htag Hfirst. unfold codeBlockRegex.
  rewrite lit_same_app.
  apply star_greedy_run; [done|done|].
  rewrite (lit_same_app [LF]).
  unfold group. rewrite star_lazy_any.
  apply (exec_first _ _ (length body)).
  - rewrite drop_app_length.
    change ([LF] ++ js "```" ++ z) with ((LF :: js "```") ++ z).
    rewrite lit_same_app. unfold accept. f_equal.
    rewrite length_app.
    replace (length body + length ((LF :: js "```") ++ z)
             - length ((LF :: js "```") ++ z)) with (length body) by lia.
    by rewrite take_app_length.
  - intros j Hj.
    destruct (lit same_unit (LF :: js "```") _ _) eqn:E; [|done].
    apply lit_same_Some in E as (rest & Hrest & _).
    destruct (Hfirst j Hj). by exists rest.
Qed.

Lemma not_elem_of_forallb (c : N) l :
  forallb (fun d => negb (d =? c)%N) l = true -> c ∉ l.
Proof.
  rewrite forallb_forall. intros H Hc%list_elem_of_In.
  specialize (H c Hc). by rewrite N.eqb_refl in H.
Qed.

Lemma elem_of_existsb (c : N) l :
  existsb (N.eqb c) l = true -> c ∈ l.
Proof.
  rewrite existsb_exists. intros (d & Hd & ->%N.eqb_eq).
  by apply list_elem_of_In.
Qed.

Lemma exec_at {R} (k : cont R) pre s r :
  k s = Some r ->
  (forall j, j < length pre -> k (drop j (pre ++ s)) = None) ->
  exec k (pre ++ s) = Some r.
Proof.
  intros Hk Hnone. apply (exec_first _ _ (length pre)); [|done].
  by rewrite drop_app_length.
Qed.

(** C1 (as amended): when the rest of the first label line holds a
    character that is not white space, and the reply has a fenced block,
    [parseAIResponse] returns the trimmed rest of that line as [filePath]
    and the interior of the first fenced block as [codeBlock], whatever
    follows the block. *)
Theorem parseAIResponse_extracts response pre l line post a tag body z :
  label_line response pre l line post ->
  (exists c, c ∈ line /\ is_space c = false) ->
  first_fenced_block response a tag body z ->
  parseAIResponse response
  = Some {| filePath := trim line; codeBlock := body |}.
Proof.
  intros (Hr1 & Hl & Hpre & Hlf & Hpost) Hns (Hr2 & Htag & Ha & Hbody).
  unfold parseAIResponse.
  assert (exec fileRegex response = Some (drop_while is_space line)) as ->.
  { rewrite Hr1. apply exec_at; [by apply fileRegex_at|].
    intros j Hj. rewrite <- Hr1.
    destruct (fileRegex (drop j response)) eqn:E; [|done].
    destruct (Hpre j Hj). by eapply fileRegex_label. }
  assert (exec codeBlockRegex response = Some body) as ->.
  { rewrite Hr2. apply exec_at; [by apply codeBlockRegex_at|].
    intros j Hj. rewrite <- Hr2.
    destruct (codeBlockRegex (drop j response)) eqn:E; [|done].
    destruct (Ha j Hj). by eapply codeBlockRegex_open. }
  by rewrite trim_drop_while.
Qed.

(** C1 at the reply of the example: the path and the code block. *)
Lemma parseAIResponse_extracts_witness :
  parseAIResponse example_reply
  = Some {| filePath := js "src/a.txt"; codeBlock := js "hello" |}.
Proof.
  assert (trim (js " src/a.txt") = js "src/a.txt") as <-
    by (vm_compute; reflexivity).
  apply (parseAIResponse_extracts example_reply
           [] (js "ARCHIVO:") (js " src/a.txt")
           (drop 18 example_reply)
           (take 19 example_reply) (js "text") (js "hello")
           (drop 36 example_reply)).
  - split; [vm_compute; reflexivity|]. split.
    { unfold is_label, same_letter. vm_compute. repeat constructor. }
    split; [simpl; lia|]. split.
    { apply not_elem_of_forallb. vm_compute. reflexivity. }
    right. eexists. vm_compute. reflexivity.
  - exists 115%N. split; [|vm_compute; reflexivity].
    apply elem_of_existsb. vm_compute. reflexivity.
  - split; [vm_compute; reflexivity|]. split.
    { vm_compute. repeat constructor. }
    split.
    + apply (none_before_spec _ _ _ _ fence_open_atb_complete).
      vm_compute. reflexivity.
    + apply (none_before_spec _ _ _ _ fence_close_atb_complete).
      vm_compute. reflexivity.
Defined.

(** C1 (as stated) fails: when nothing follows the label on its line, the
    pattern's white space runs over the line feed and the path is taken
    from the next line. *)
Lemma label_line_contract_counterexample : ~ label_line_contract.
Proof.
  intros H.
  specialize (H blank_label_reply
                [] (js "ARCHIVO:") [] (drop 8 blank_label_reply)
                (take 9 blank_label_reply) [] (js "x") []).
  assert (parseAIResponse blank_label_reply
          = Some {| filePath := js "```"; codeBlock := js "x" |}) as Hcode
    by (vm_compute; reflexivity).
  rewrite Hcode in H.
  assert (Some {| filePath := js "```"; codeBlock := js "x" |}
          <> Some {| filePath := trim []; codeBlock := js "x" |}) as Hne
    by (vm_compute; discriminate).
  apply Hne, H.
  - split; [vm_compute; reflexivity|]. split.
    { unfold is_label, same_letter. vm_compute. repeat constructor. }
    split; [simpl; lia|]. split; [apply not_elem_of_nil|].
    right. eexists. vm_compute. reflexivity.
  - split; [vm_compute; reflexivity|]. split; [constructor|]. split.
    + apply (none_before_spec _ _ _ _ fence_open_atb_complete).
      vm_compute. reflexivity.
    + apply (none_before_spec _ _ _ _ fence_close_atb_complete).
      vm_compute. reflexivity.
Qed.

End ParserTheorems.

(** ** The confirmation, the apply stage and the loop *)
Section ReplTheorems.
Variable toLowerCase : jsstring -> jsstring.
Variable env : Env.

Lemma str_eqb_true s t : str_eqb s t = true <-> s = t.
Proof. unfold str_eqb. by rewrite bool_decide_eq_true. Qed.

Lemma str_eqb_false s t : str_eqb s t = false <-> s <> t.
Proof. unfold str_eqb. by rewrite bool_decide_eq_false. Qed.

Lemma exit_token_test input :
  str_eqb (toLowerCase (trim input)) (js "salir")
  || str_eqb (toLowerCase (trim input)) (js "exit") = true
  <-> exit_token toLowerCase input.
Proof. unfold exit_token. by rewrite orb_true_iff, !str_eqb_true. Qed.

Lemma request_tests input :
  request toLowerCase input ->
  str_eqb (toLowerCase (trim input)) (js "salir")
  || str_eqb (toLowerCase (trim input)) (js "exit") = false
  /\ str_eqb (trim input) [] = false.
Proof.
  intros [Hne Hblank]. split; [|by apply str_eqb_false].
  apply not_true_is_false. by rewrite exit_token_test.
Qed.

Lemma parseAIResponse_None response :
  (forall j, ~ label_at (drop j response))
  \/ (forall j, ~ fenced_block_at (drop j response)) ->
  parseAIResponse response = None.
Proof.
  intros [Hno|Hno]; unfold parseAIResponse.
  - rewrite exec_None; [done|]. intros i.
    destruct (fileRegex (drop i response)) eqn:E; [|done].
    destruct (Hno i). by eapply fileRegex_label.
  - destruct (Regex.exec fileRegex response); [|done].
    rewrite exec_None; [done|]. intros i.
    destruct (codeBlockRegex (drop i response)) eqn:E; [|done].
    destruct (Hno i). by eapply codeBlockRegex_block.
Qed.

(** C2: a reply without the label, or without a fenced block, parses to
    nothing; the turn that received it leaves files, directories and
    clipboard as they were, keeps the process running and prompts again. *)
Theorem parse_failure_is_recoverable response input t w :
  (forall j, ~ label_at (drop j response))
  \/ (forall j, ~ fenced_block_at (drop j response)) ->
  request toLowerCase input ->
  (forall prompt, reply t prompt = inl response) ->
  parseAIResponse response = None
  /\ same_store w (on_line toLowerCase env input t w)
  /\ same_process w (on_line toLowerCase env input t w)
  /\ prompts (on_line toLowerCase env input t w) = S (prompts w).
Proof.
  intros Hno [Hx Hb]%request_tests Hreply.
  pose proof (parseAIResponse_None _ Hno) as Hnone.
  split; [done|]. unfold on_line. rewrite Hx, Hb.
  destruct (getProjectContext _ _ _ _) as [ctx walked].
  unfold askAI. rewrite Hreply, Hnone. done.
Qed.

Lemma apply_test r :
  str_eqb r (js "s") || str_eqb r (js "si") || str_eqb r (js "sí") = true
  <-> r ∈ [js "s"; js "si"; js "sí"].
Proof.
  rewrite !orb_true_iff, !str_eqb_true, !elem_of_cons, elem_of_nil. tauto.
Qed.

Lemma copy_test r :
  str_eqb r (js "c") || str_eqb r (js "copiar") = true
  <-> r ∈ [js "c"; js "copiar"].
Proof.
  rewrite !orb_true_iff, !str_eqb_true, !elem_of_cons, elem_of_nil. tauto.
Qed.

Lemma copy_not_apply r :
  r ∈ [js "c"; js "copiar"] -> r ∉ [js "s"; js "si"; js "sí"].
Proof.
  rewrite !elem_of_cons, !elem_of_nil.
  intros [->|[->|[]]] [H|[H|[H|[]]]]; vm_compute in H; discriminate H.
Qed.

Lemma confirm_apply b edit answer w :
  trim (toLowerCase answer) ∈ [js "s"; js "si"; js "sí"] ->
  confirm toLowerCase env b edit answer w
  = prompt (applyEdit env b edit w).
Proof. intros H%apply_test. unfold confirm. by rewrite H. Qed.

Lemma confirm_copy b edit answer w :
  trim (toLowerCase answer) ∈ [js "c"; js "copiar"] ->
  confirm toLowerCase env b edit answer w
  = prompt (copyToClipboard env (codeBlock edit) w).
Proof.
  intros H. unfold confirm.
  rewrite (not_true_is_false _
             (proj2 (not_iff_compat (apply_test _)) (copy_not_apply _ H))).
  apply copy_test in H. by rewrite H.
Qed.

Lemma confirm_cancel b edit answer w :
  trim (toLowerCase answer)
    ∉ [js "s"; js "si"; js "sí"; js "c"; js "copiar"] ->
  confirm toLowerCase env b edit answer w
  = prompt (log (js "❌ Cambios cancelados") w).
Proof.
  intros H. unfold confirm.
  rewrite (not_true_is_false (_ || _ || _)).
  2:{ rewrite apply_test. intros Hin. apply H.
      rewrite !elem_of_cons, elem_of_nil in *. tauto. }
  rewrite (not_true_is_false (_ || _)); [done|].
  rewrite copy_test. intros Hin. apply H.
  rewrite !elem_of_cons, elem_of_nil in *. tauto.
Qed.

Lemma applyEdit_store b edit w :
  clipboard (applyEdit env b edit w) = clipboard w
  /\ (files (applyEdit env b edit w) = files w
      \/ files (applyEdit env b edit w)
         = <[filePath edit := codeBlock edit]> (files w)).
Proof.
  unfold applyEdit.
  destruct (mkdir_error env _); [by split; [|left]|].
  destruct (writeFile_error env _); by split; [|auto].
Qed.

Lemma applyEdit_success b edit w :
  mkdir_error env (dirname (filePath edit)) = None ->
  writeFile_error env (filePath edit) = None ->
  files (applyEdit env b edit w)
  = <[filePath edit := codeBlock edit]> (files w).
Proof. intros Hm Hw. unfold applyEdit. by rewrite Hm, Hw. Qed.

Lemma copyToClipboard_store text w :
  files (copyToClipboard env text w) = files w
  /\ directories (copyToClipboard env text w) = directories w
  /\ (pbcopy env || xclip env = true ->
      clipboard (copyToClipboard env text w) = Some text).
Proof. unfold copyToClipboard. by destruct (pbcopy env), (xclip env). Qed.

(** C3: the trimmed, lower-cased answer decides the branch.  [s], [si]
    and [sí] run the apply stage, which on success stores the code block
    under the path and leaves the clipboard alone; [c] and [copiar] run
    the clipboard copy, which pipes the code block to the first tool
    available and touches no file; any other answer leaves files,
    directories and clipboard unchanged. *)
Theorem confirm_dispatch fileExists edit answer w :
  let response := trim (toLowerCase answer) in
  let w' := confirm toLowerCase env fileExists edit answer w in
  (response ∈ [js "s"; js "si"; js "sí"] ->
     w' = prompt (applyEdit env fileExists edit w)
     /\ clipboard w' = clipboard w
     /\ (mkdir_error env (dirname (filePath edit)) = None ->
         writeFile_error env (filePath edit) = None ->
         files w' = <[filePath edit := codeBlock edit]> (files w)))
  /\ (response ∈ [js "c"; js "copiar"] ->
     w' = prompt (copyToClipboard env (codeBlock edit) w)
     /\ files w' = files w /\ directories w' = directories w
     /\ (pbcopy env || xclip env = true ->
         clipboard w' = Some (codeBlock edit)))
  /\ (response ∉ [js "s"; js "si"; js "sí"; js "c"; js "copiar"] ->
     same_store w w').
Proof.
  intros response w'. subst response w'. split; [|split].
  - intros H. rewrite (confirm_apply _ _ _ _ H).
    split; [done|]. split; [apply applyEdit_store|].
    apply applyEdit_success.
  - intros H. rewrite (confirm_copy _ _ _ _ H).
    split; [done|]. apply copyToClipboard_store.
  - intros H. by rewrite (confirm_cancel _ _ _ _ H).
Qed.

(** C4: the apply stage never merges: it leaves the files as they were
    or stores the code block under the target path; when [mkdir] and
    [writeFile] succeed, the target file holds exactly the code block,
    whatever it held before, and every other file is as it was; applying
    the same edit again leaves the files as the first apply left them. *)
Theorem applyEdit_overwrites b b' edit w :
  (files (applyEdit env b edit w) = files w
   \/ files (applyEdit env b edit w)
      = <[filePath edit := codeBlock edit]> (files w))
  /\ files (applyEdit env b' edit (applyEdit env b edit w))
     = files (applyEdit env b edit w)
  /\ (mkdir_error env (dirname (filePath edit)) = None ->
      writeFile_error env (filePath edit) = None ->
      files (applyEdit env b edit w) !! filePath edit
      = Some (codeBlock edit)
      /\ forall path, path <> filePath edit ->
           files (applyEdit env b edit w) !! path = files w !! path).
Proof.
  split; [apply applyEdit_store|]. split.
  - unfold applyEdit.
    destruct (mkdir_error env _); [done|].
    destruct (writeFile_error env _); [done|].
    simpl. apply insert_insert_eq.
  - intros Hm Hw. rewrite !applyEdit_success by done.
    split; [apply lookup_insert_eq|].
    intros path Hne. by rewrite lookup_insert_ne.
Qed.

End ReplTheorems.

(** ** The project context collector *)
Section CollectorTheorems.
Variable toLowerCase : jsstring -> jsstring.

(** Induction on a listing, with the property available for every
    subdirectory listed in it. *)
Lemma listing_ind' (P : listing -> Prop) :
  (forall items,
      Forall (fun it : jsstring * entry =>
                match it.2 with Directory sub => P sub | _ => True end)
             items ->
      P (Listed items)) ->
  (forall message, P (ReaddirFails message)) ->
  forall dir, P dir.
Proof.
  intros HL HF. fix IH 1. intros [items|message]; [|apply HF].
  apply HL. induction items as [|[name e] items IHitems]; constructor.
  - destruct e; simpl; try exact I. apply IH.
  - exact IHitems.
Qed.

Section Loop.
Variable recur : listing -> jsstring -> jsstring * list jsstring.
Variables dirPath basePath : jsstring.

Lemma visit_acc acc it :
  visit toLowerCase recur dirPath basePath acc it
  = (acc.1 ++ (visit toLowerCase recur dirPath basePath ([], []) it).1,
     acc.2 ++ (visit toLowerCase recur dirPath basePath ([], []) it).2).
Proof.
  destruct acc as [context console], it as [item e]. unfold visit.
  destruct (includes ignoredItems item); simpl.
  { by rewrite !app_nil_r. }
  destruct e as [[content|]|sub| |]; simpl; rewrite ?app_nil_r; try done.
  - by destruct (includes ignoredExtensions _); simpl; rewrite ?app_nil_r.
  - by destruct (includes ignoredExtensions _); simpl; rewrite ?app_nil_r.
  - by destruct (recur sub _).
Qed.

Lemma fold_visit items acc :
  fold_left (visit toLowerCase recur dirPath basePath) items acc
  = (acc.1 ++ concat (map (fun it =>
               (visit toLowerCase recur dirPath basePath ([], []) it).1)
               items),
     acc.2 ++ concat (map (fun it =>
               (visit toLowerCase recur dirPath basePath ([], []) it).2)
               items)).
Proof.
  revert acc. induction items as [|it items IH]; intros acc; simpl.
  - rewrite !app_nil_r. by destruct acc.
  - rewrite IH, visit_acc. simpl. by rewrite <- !app_assoc.
Qed.

End Loop.

Lemma getProjectContext_Listed items dirPath basePath :
  getProjectContext toLowerCase (Listed items) dirPath basePath
  = (concat (map (fun it => (contribution toLowerCase dirPath basePath it).1) items),
     concat (map (fun it => (contribution toLowerCase dirPath basePath it).2) items)).
Proof. simpl. by rewrite fold_visit. Qed.

Lemma join_snoc sep (l : list jsstring) x :
  l <> [] -> join sep (l ++ [x]) = join sep l ++ sep ++ x.
Proof.
  induction l as [|y l IH]; [done|]. intros _.
  destruct l as [|z l]; [done|].
  change (join sep ((y :: z :: l) ++ [x]))
    with (y ++ sep ++ join sep ((z :: l) ++ [x])).
  rewrite IH by done. simpl. by rewrite <- !app_assoc.
Qed.

Lemma path_join_below base prefix item :
  path_join (join (js "/") (base :: prefix)) item
  = join (js "/") (base :: prefix ++ [item]).
Proof.
  unfold path_join.
  change (base :: prefix ++ [item]) with ((base :: prefix) ++ [item]).
  by rewrite join_snoc.
Qed.

Lemma path_relative_below base names :
  names <> [] ->
  path_relative base (join (js "/") (base :: names)) = relative names.
Proof.
  intros Hne. destruct names as [|n names]; [done|].
  unfold path_relative, relative.
  change (join (js "/") (base :: n :: names))
    with (base ++ js "/" ++ join (js "/") (n :: names)).
  change (base ++ js "/" ++ join (js "/") (n :: names))
    with (base ++ 47%N :: join (js "/") (n :: names)).
  rewrite drop_app_ge by lia.
  by replace (S (length base) - length base) with 1 by lia.
Qed.

Lemma includes_true l x : includes l x = true <-> x ∈ l.
Proof. unfold includes. by rewrite bool_decide_eq_true. Qed.

Lemma includes_false l x : includes l x = false <-> x ∉ l.
Proof. unfold includes. by rewrite bool_decide_eq_false. Qed.

Lemma context_included dir : forall prefix base dirPath,
  dirPath = join (js "/") (base :: prefix) ->
  (getProjectContext toLowerCase dir dirPath base).1
  = concat (map block (map (below prefix) (included toLowerCase dir))).
Proof.
  induction dir as [items IH|message] using listing_ind';
    intros prefix base dirPath Hd; [|done].
  rewrite getProjectContext_Listed.
  cbn [fst included].
  induction IH as [|[item e] items He _ IHitems]; [done|].
  cbn [map flat_map concat].
  rewrite !map_app, concat_app, <- IHitems. f_equal.
  unfold contribution, visit. cbn [fst snd].
  assert (path_relative base (path_join dirPath item)
          = relative (prefix ++ [item])) as ->.
  { rewrite Hd, path_join_below, path_relative_below; [done|].
    by destruct prefix. }
  destruct (includes ignoredItems item); [done|].
  destruct e as [[content|]|sub| |]; cbn [snd] in He; try done.
  - destruct (includes ignoredExtensions _); [done|].
    unfold block, below. simpl. by rewrite app_nil_r.
  - by destruct (includes ignoredExtensions _).
  - specialize (He (prefix ++ [item]) base (path_join dirPath item)).
    rewrite Hd, path_join_below in He. specialize (He eq_refl).
    rewrite Hd, path_join_below.
    destruct (getProjectContext toLowerCase sub _ base) as [c o].
    cbn [fst] in *. rewrite He. rewrite !map_map. simpl.
    f_equal. apply map_ext.
    intros [names content]. unfold below. simpl.
    by rewrite <- app_assoc.
Qed.

Lemma below_nil fs : map (below []) fs = fs.
Proof. induction fs as [|[? ?] fs IH]; simpl; [done|]. by rewrite IH. Qed.

Lemma context_blocks dir cwd :
  (getProjectContext toLowerCase dir cwd cwd).1
  = concat (map block (included toLowerCase dir)).
Proof.
  rewrite (context_included dir [] cwd cwd) by done.
  by rewrite below_nil.
Qed.

(** An included file is a readable file reached through kept names,
    with a kept extension; and every such file is included. *)
Lemma included_iff dir names content :
  (names, content) ∈ included toLowerCase dir
  <-> reaches dir names (File (Some content))
      /\ Forall kept names
      /\ exists name, last names = Some name /\ text_name toLowerCase name.
Proof.
  split.
  - revert names. induction dir as [items IH|message] using listing_ind';
      intros names; simpl; [|by intros ?%elem_of_nil].
    rewrite list_elem_of_In, in_flat_map.
    intros ([item e] & Hin%list_elem_of_In & Hf%list_elem_of_In).
    simpl in Hf.
    destruct (includes ignoredItems item) eqn:Hk;
      [by apply elem_of_nil in Hf|].
    apply includes_false in Hk.
    rewrite Forall_forall in IH. specialize (IH _ Hin). simpl in IH.
    destruct e as [[c|]|sub| |]; try by apply elem_of_nil in Hf.
    + destruct (includes ignoredExtensions _) eqn:Hx;
        [by apply elem_of_nil in Hf|].
      apply includes_false in Hx.
      apply list_elem_of_singleton in Hf as [= -> ->].
      split; [by constructor|]. split; [by repeat constructor|].
      by exists item.
    + apply list_elem_of_fmap in Hf as ([ns c] & [= -> ->] & Hsub).
      destruct (IH _ Hsub) as (Hr & Hkept & name & Hlast & Hx).
      split; [by eapply reaches_sub|]. split; [by constructor|].
      exists name. split; [|done].
      destruct ns; [done|]. done.
  - intros (Hr & Hkept & name & Hlast & Hx).
    remember (File (Some content)) as e eqn:He.
    induction Hr as [items n e Hin|items n sub ns e Hin Hr IH]; subst e.
    + simpl in Hlast. injection Hlast as ->.
      inversion Hkept as [|? ? Hk _]; subst.
      simpl. rewrite list_elem_of_In, in_flat_map.
      exists (name, File (Some content)).
      split; [by apply list_elem_of_In|]. simpl.
      apply includes_false in Hk, Hx. rewrite Hk, Hx. by left.
    + inversion Hkept as [|? ? Hk Hkept']; subst.
      assert (last ns = Some name) as Hlast'.
      { destruct ns; [inversion Hr|done]. }
      specialize (IH eq_refl Hkept' Hlast').
      simpl. rewrite list_elem_of_In, in_flat_map.
      exists (n, Directory sub).
      split; [by apply list_elem_of_In|]. simpl.
      apply includes_false in Hk. rewrite Hk.
      apply list_elem_of_In, list_elem_of_fmap. by exists (ns, content).
Qed.

Lemma concat_map_flat_map {A B} (f : A -> list B) (h : A -> list A) items :
  Forall (fun it => concat (map f (h it)) = f it) items ->
  concat (map f (flat_map h items)) = concat (map f items).
Proof.
  induction 1 as [|it items Hit _ IH]; simpl; [done|].
  by rewrite map_app, concat_app, Hit, IH.
Qed.



(** Entries whose name is skipped contribute nothing. *)
Lemma contribution_skipped dirPath basePath name e :
  name ∈ ignoredItems ->
  contribution toLowerCase dirPath basePath (name, e) = ([], []).
Proof.
  intros H%includes_true. unfold contribution, visit. by rewrite H.
Qed.

(** Removing the entries that carry a skipped name changes neither the
    context nor the console. *)
Lemma without_skipped_name name dir :
  name ∈ ignoredItems ->
  forall dirPath basePath,
    getProjectContext toLowerCase (without_name name dir) dirPath basePath
    = getProjectContext toLowerCase dir dirPath basePath.
Proof.
  intros Hname.
  induction dir as [items IH|message] using listing_ind';
    intros dirPath basePath; [|done].
  cbn [without_name]. rewrite !getProjectContext_Listed.
  assert (Forall (fun it : jsstring * entry =>
    map (contribution toLowerCase dirPath basePath)
        (if str_eqb it.1 name then []
         else match it.2 with
              | Directory sub => [(it.1, Directory (without_name name sub))]
              | e => [(it.1, e)]
              end)
    = if str_eqb it.1 name then []
      else [contribution toLowerCase dirPath basePath it]) items) as Hall.
  { eapply Forall_impl; [exact IH|]. intros [item e] He. simpl in *.
    destruct (str_eqb item name); [done|].
    destruct e as [r|sub| |]; try done.
    simpl. f_equal. unfold contribution, visit.
    destruct (includes ignoredItems item); [done|].
    by rewrite He. }
  f_equal.
  - apply concat_map_flat_map. eapply Forall_impl; [exact Hall|].
    intros [item e] He. simpl in *.
    rewrite <- (map_map (contribution toLowerCase dirPath basePath) fst).
    rewrite He.
    destruct (str_eqb item name) eqn:E; simpl; [|by rewrite app_nil_r].
    apply str_eqb_true in E as ->. by rewrite contribution_skipped.
  - apply concat_map_flat_map. eapply Forall_impl; [exact Hall|].
    intros [item e] He. simpl in *.
    rewrite <- (map_map (contribution toLowerCase dirPath basePath) snd).
    rewrite He.
    destruct (str_eqb item name) eqn:E; simpl; [|by rewrite app_nil_r].
    apply str_eqb_true in E as ->. by rewrite contribution_skipped.
Qed.



(** C5: the context is made of the blocks of the included files; an
    included file is a readable file reached through names that are not in
    the ignore set, with an extension that is not in the extension set; and
    every readable file so reached is included. *)
Theorem collector_includes_exactly dir cwd :
  (getProjectContext toLowerCase dir cwd cwd).1
  = concat (map block (included toLowerCase dir))
  /\ (forall names content,
        (names, content) ∈ included toLowerCase dir ->
        reaches dir names (File (Some content))
        /\ Forall kept names
        /\ exists name, last names = Some name
                        /\ text_name toLowerCase name)
  /\ (forall names content name,
        reaches dir names (File (Some content)) ->
        Forall kept names ->
        last names = Some name ->
        text_name toLowerCase name ->
        (names, content) ∈ included toLowerCase dir).
Proof.
  split; [apply context_blocks|]. split.
  - intros names content. apply included_iff.
  - intros names content name Hr Hk Hl Hx. apply included_iff. eauto.
Qed.


(** C7: the context is the concatenation, over the included files in
    depth-first order, of header, text and footer; in a listing, a kept
    file adds its block and a kept subdirectory adds its whole context, at
    the entry's position. *)
Theorem context_is_depth_first dir cwd :
  (getProjectContext toLowerCase dir cwd cwd).1
  = concat (map (fun f => file_header (relative f.1) ++ f.2
                            ++ file_footer (relative f.1))
                (included toLowerCase dir))
  /\ (forall before name content after dirPath base,
        kept name -> text_name toLowerCase name ->
        (getProjectContext toLowerCase
           (Listed (before ++ (name, File (Some content)) :: after))
           dirPath base).1
        = (getProjectContext toLowerCase (Listed before) dirPath base).1
          ++ (file_header (path_relative base (path_join dirPath name))
              ++ content
              ++ file_footer (path_relative base (path_join dirPath name)))
          ++ (getProjectContext toLowerCase (Listed after) dirPath base).1)
  /\ (forall before name sub after dirPath base,
        kept name ->
        (getProjectContext toLowerCase
           (Listed (before ++ (name, Directory sub) :: after))
           dirPath base).1
        = (getProjectContext toLowerCase (Listed before) dirPath base).1
          ++ (getProjectContext toLowerCase sub (path_join dirPath name)
                                base).1
          ++ (getProjectContext toLowerCase (Listed after) dirPath base).1).
Proof.
  split; [apply context_blocks|]. split.
  - intros before name content after dirPath base Hk Hx.
    rewrite !getProjectContext_Listed. cbn [fst].
    rewrite map_app, concat_app. cbn [map concat]. do 2 f_equal.
    unfold contribution, visit. apply includes_false in Hk, Hx.
    by rewrite Hk, Hx.
  - intros before name sub after dirPath base Hk.
    rewrite !getProjectContext_Listed. cbn [fst].
    rewrite map_app, concat_app. cbn [map concat]. do 2 f_equal.
    unfold contribution, visit. apply includes_false in Hk. rewrite Hk.
    by destruct (getProjectContext toLowerCase sub _ base).
Qed.

(** C10: the ignore set is consulted for every entry of every directory:
    removing the entries called [index.js] at every depth changes neither
    the context nor the console, and no included file has [index.js] among
    the names that lead to it. *)
Theorem index_js_excluded_everywhere dir cwd :
  getProjectContext toLowerCase (without_name (js "index.js") dir) cwd cwd
  = getProjectContext toLowerCase dir cwd cwd
  /\ (getProjectContext toLowerCase dir cwd cwd).1
     = concat (map block (included toLowerCase dir))
  /\ forall f, f ∈ included toLowerCase dir -> js "index.js" ∉ f.1.
Proof.
  assert (js "index.js" ∈ ignoredItems) as Hin.
  { unfold ignoredItems. do 6 right. left. }
  split; [by apply without_skipped_name|]. split; [apply context_blocks|].
  intros [names content] (_ & Hk & _)%included_iff Hnames. simpl in *.
  rewrite Forall_forall in Hk. by apply (Hk _ Hnames).
Qed.

End CollectorTheorems.

(** ** The preview presenter *)
Section PreviewTheorems.

Lemma split_LF_nonempty s : split_LF s <> [].
Proof.
  induction s as [|c s IH]; simpl; [done|].
  destruct (c =? LF)%N; [done|]. by destruct (split_LF s).
Qed.

Lemma split_LF_no_LF s : Forall (fun l => LF ∉ l) (split_LF s).
Proof.
  induction s as [|c s IH]; simpl.
  - repeat constructor. apply not_elem_of_nil.
  - destruct (N.eqb_spec c LF) as [->|Hne].
    + constructor; [apply not_elem_of_nil|done].
    + destruct (split_LF s) as [|l ls] eqn:E;
        [by apply split_LF_nonempty in E|].
      inversion IH as [|? ? Hl Hls]; subst. constructor; [|done].
      rewrite not_elem_of_cons. by split.
Qed.

Lemma split_LF_line l s : LF ∉ l -> split_LF (l ++ LF :: s) = l :: split_LF s.
Proof.
  induction l as [|c l IH]; simpl; [done|].
  rewrite not_elem_of_cons. intros [Hne Hl].
  destruct (N.eqb_spec c LF) as [->|_]; [done|]. by rewrite IH.
Qed.

Lemma split_LF_last l : LF ∉ l -> split_LF l = [l].
Proof.
  induction l as [|c l IH]; simpl; [done|].
  rewrite not_elem_of_cons. intros [Hne Hl].
  destruct (N.eqb_spec c LF) as [->|_]; [done|]. by rewrite IH.
Qed.

(** Joining lines with line feeds and splitting again gives the lines. *)
Lemma split_LF_join ls :
  ls <> [] -> Forall (fun l => LF ∉ l) ls -> split_LF (join [LF] ls) = ls.
Proof.
  induction ls as [|l ls IH]; [done|]. intros _ Hall.
  inversion Hall as [|? ? Hl Hls]; subst.
  destruct ls as [|l' ls]; [by apply split_LF_last|].
  change (join [LF] (l :: l' :: ls)) with (l ++ LF :: join [LF] (l' :: ls)).
  rewrite split_LF_line by done. f_equal. by apply IH.
Qed.

(** The content is its lines joined by line feeds. *)
Lemma join_split_LF s : join [LF] (split_LF s) = s.
Proof.
  induction s as [|c s IH]; simpl; [done|].
  destruct (N.eqb_spec c LF) as [->|_].
  - pose proof (split_LF_nonempty s).
    destruct (split_LF s) as [|l ls]; [done|]. simpl in *. by rewrite IH.
  - pose proof (split_LF_nonempty s).
    destruct (split_LF s) as [|l ls]; [done|].
    destruct ls; simpl in *; by rewrite <- IH.
Qed.

Lemma applyEdit_console env b edit w :
  exists rest, console (applyEdit env b edit w) = console w ++ rest.
Proof.
  unfold applyEdit.
  destruct (mkdir_error env _); [by eexists|].
  destruct (writeFile_error env _); by eexists.
Qed.

Lemma confirm_console toLowerCase env b edit answer w :
  exists rest,
    console (confirm toLowerCase env b edit answer w) = console w ++ rest.
Proof.
  unfold confirm. destruct (_ || _ || _); [|destruct (_ || _)].
  - destruct (applyEdit_console env b edit w) as [rest H]. by exists rest.
  - unfold copyToClipboard. destruct (pbcopy env), (xclip env); by eexists.
  - by eexists.
Qed.

Lemma numbered_omitted limit lines :
  shows_first limit lines (numbered (take limit lines) ++ omitted limit lines).
Proof.
  exists (numbered (take limit lines)), (omitted limit lines).
  split; [done|]. split.
  { unfold numbered. by rewrite length_imap, length_take. }
  split; [|split].
  - intros i line. unfold numbered. rewrite list_lookup_imap.
    split.
    + destruct (take limit lines !! i) as [l|] eqn:E; [|done].
      intros Heq. apply (inj Some) in Heq. apply app_inv_head in Heq.
      apply (app_inv_head (js ": ")) in Heq. subst l.
      apply lookup_take_Some in E. tauto.
    + intros [Hi Hl]. by rewrite lookup_take_lt, Hl by done.
  - intros Hle. unfold omitted. rewrite bool_decide_eq_false_2; [done|lia].
  - intros Hlt. unfold omitted. by rewrite bool_decide_eq_true_2.
Qed.

(** C8: for an existing file [showDiff] prints, between its headings, at
    most the first 10 lines of the old content and at most the first 10
    lines of the new content, each followed by the count of the lines left
    out when there are more than 10; for a new file the preview prints one
    text made of at most the first 15 lines of the code block, followed by
    the count of the lines left out when there are more than 15. *)
Theorem preview_is_bounded oldContent newContent codeBlock :
  (exists oldPart newPart,
      showDiff oldContent newContent
      = [ [LF] ++ js "📋 COMPARACIÓN DE CAMBIOS:"; repeat_str (js "=") 50;
          js "🔴 CONTENIDO ANTERIOR:"; repeat_str (js "-") 30 ]
        ++ oldPart
        ++ [ [LF] ++ js "🟢 CONTENIDO NUEVO:"; repeat_str (js "-") 30 ]
        ++ newPart ++ [ repeat_str (js "=") 50 ]
      /\ shows_first 10 (split_LF oldContent) oldPart
      /\ shows_first 10 (split_LF newContent) newPart
      /\ length oldPart <= 11 /\ length newPart <= 11)
  /\ (exists text rest,
        showNewFile codeBlock
        = [ [LF] ++ js "📋 CONTENIDO DEL NUEVO ARCHIVO:";
            repeat_str (js "-") 40; text ]
          ++ rest ++ [ repeat_str (js "-") 40 ]
        /\ split_LF text = take 15 (split_LF codeBlock)
        /\ length (split_LF text) <= 15
        /\ (length (split_LF codeBlock) <= 15 ->
            rest = [] /\ text = codeBlock)
        /\ (15 < length (split_LF codeBlock) ->
            rest = [js "... y "
                      ++ number_to_string (length (split_LF codeBlock) - 15)
                      ++ js " líneas más"]))
  /\ (forall toLowerCase env edit answer w,
        exists rest,
          console (previewAndConfirm toLowerCase env edit answer w)
          = console w
            ++ [ [LF] ++ js "📄 Archivo a modificar: " ++ filePath edit ]
            ++ match files w !! filePath edit with
               | Some oldContent => showDiff oldContent (Parser.codeBlock edit)
               | None =>
                 [ js "📝 Archivo nuevo (no existe actualmente)" ]
                 ++ showNewFile (Parser.codeBlock edit)
               end
            ++ rest).
Proof.
  assert (forall limit lines,
             length (numbered (take limit lines) ++ omitted limit lines)
             <= S limit) as Hlen.
  { intros limit lines. unfold numbered, omitted.
    rewrite length_app, length_imap, length_take.
    case_bool_decide; simpl; lia. }
  split; [|split].
  - exists (numbered (take 10 (split_LF oldContent))
              ++ omitted 10 (split_LF oldContent)),
           (numbered (take 10 (split_LF newContent))
              ++ omitted 10 (split_LF newContent)).
    split; [unfold showDiff; by rewrite <- !app_assoc|].
    split; [apply numbered_omitted|]. split; [apply numbered_omitted|].
    split; apply Hlen.
  - exists (join [LF] (take 15 (split_LF codeBlock))),
           (omitted 15 (split_LF codeBlock)).
    split; [done|].
    assert (split_LF (join [LF] (take 15 (split_LF codeBlock)))
            = take 15 (split_LF codeBlock)) as Hsplit.
    { apply split_LF_join.
      - pose proof (split_LF_nonempty codeBlock).
        by destruct (split_LF codeBlock).
      - apply Forall_take, split_LF_no_LF. }
    split; [done|]. split.
    { rewrite Hsplit, length_take. lia. }
    split.
    + intros Hle. unfold omitted.
      rewrite bool_decide_eq_false_2 by lia. split; [done|].
      rewrite take_ge by done. apply join_split_LF.
    + intros Hlt. unfold omitted. by rewrite bool_decide_eq_true_2.
  - intros toLowerCase env edit answer w. unfold previewAndConfirm.
    cbn [files log logs].
    destruct (files w !! filePath edit) as [previous|];
      match goal with
      | |- context [confirm _ _ ?b _ _ ?w1] =>
        destruct (confirm_console toLowerCase env b edit answer w1)
          as [rest ->]
      end;
      exists rest; cbn [console log logs]; by rewrite <- !app_assoc.
Qed.

End PreviewTheorems.

(** ** The theorems at concrete inputs *)
Section Witnesses.

(** C2 at a reply without label and without fence. *)
Lemma parse_failure_is_recoverable_witness :
  parseAIResponse (js "sin formato") = None
  /\ same_store (fresh ∅)
       (on_line lower_latin1 env_ok (js "hola")
                (turn_of (js "sin formato") (js "s")) (fresh ∅))
  /\ same_process (fresh ∅)
       (on_line lower_latin1 env_ok (js "hola")
                (turn_of (js "sin formato") (js "s")) (fresh ∅))
  /\ prompts (on_line lower_latin1 env_ok (js "hola")
                (turn_of (js "sin formato") (js "s")) (fresh ∅)) = 1.
Proof.
  apply (parse_failure_is_recoverable lower_latin1 env_ok
           (js "sin formato") (js "hola")
           (turn_of (js "sin formato") (js "s")) (fresh ∅)).
  - left. apply (none_anywhere _ _ _ label_atb_complete).
    vm_compute. reflexivity.
  - split.
    + intros [H|H]; vm_compute in H; discriminate H.
    + vm_compute. discriminate.
  - intros prompt. reflexivity.
Defined.

(** C3 at the answers [ Sí ], [COPIAR] and [n]. *)
Lemma confirm_dispatch_witness :
  files (confirm lower_latin1 env_ok false example_edit (js " Sí ")
                 (fresh ∅))
  = <[js "src/a.txt" := js "hello"]> ∅
  /\ clipboard (confirm lower_latin1 env_ok false example_edit
                        (js "COPIAR") (fresh ∅))
     = Some (js "hello")
  /\ same_store (fresh ∅)
       (confirm lower_latin1 env_ok false example_edit (js "n") (fresh ∅)).
Proof.
  split; [|split].
  - destruct (confirm_dispatch lower_latin1 env_ok false example_edit
                (js " Sí ") (fresh ∅)) as (H & _ & _).
    apply H; [|reflexivity|reflexivity].
    rewrite !elem_of_cons. right. right. left. vm_compute. reflexivity.
  - destruct (confirm_dispatch lower_latin1 env_ok false example_edit
                (js "COPIAR") (fresh ∅)) as (_ & H & _).
    apply H; [|reflexivity].
    rewrite !elem_of_cons. right. left. vm_compute. reflexivity.
  - destruct (confirm_dispatch lower_latin1 env_ok false example_edit
                (js "n") (fresh ∅)) as (_ & _ & H).
    apply H. rewrite !elem_of_cons, elem_of_nil.
    intros [E|[E|[E|[E|[E|[]]]]]]; vm_compute in E; discriminate E.
Defined.

(** C4 on a file that held another text. *)
Lemma applyEdit_overwrites_witness :
  files (applyEdit env_ok true example_edit
                   (fresh {[js "src/a.txt" := js "old text"]}))
    !! js "src/a.txt"
  = Some (js "hello").
Proof.
  destruct (applyEdit_overwrites env_ok true true example_edit
              (fresh {[js "src/a.txt" := js "old text"]})) as (_ & _ & H).
  apply H; reflexivity.
Defined.

(** C5 on the example tree: the readable file below [src] is included. *)
Lemma collector_includes_exactly_witness :
  ([js "src"; js "e.md"], js "E") ∈ included lower_latin1 example_tree.
Proof.
  destruct (collector_includes_exactly lower_latin1 example_tree
              (js "/home/u/proyecto")) as (_ & _ & H).
  apply (H _ _ (js "e.md")).
  - eapply reaches_sub; [do 2 right; left|].
    apply reaches_item. do 3 right. left.
  - repeat constructor; apply includes_false; vm_compute; reflexivity.
  - reflexivity.
  - apply includes_false. vm_compute. reflexivity.
Defined.


(** C7 on a listing with a subdirectory between two files. *)
Lemma context_is_depth_first_witness :
  (getProjectContext lower_latin1
     (Listed ([(js "a.txt", File (Some (js "hi")))]
                ++ (js "src",
                    Directory (Listed [(js "e.md", File (Some (js "E")))]))
                :: [(js "z.txt", File (Some (js "zz")))]))
     (js "/p") (js "/p")).1
  = (getProjectContext lower_latin1
       (Listed [(js "a.txt", File (Some (js "hi")))]) (js "/p") (js "/p")).1
    ++ (getProjectContext lower_latin1
          (Listed [(js "e.md", File (Some (js "E")))])
          (path_join (js "/p") (js "src")) (js "/p")).1
    ++ (getProjectContext lower_latin1
          (Listed [(js "z.txt", File (Some (js "zz")))])
          (js "/p") (js "/p")).1.
Proof.
  destruct (context_is_depth_first lower_latin1 example_tree (js "/p"))
    as (_ & _ & H).
  apply H. apply includes_false. vm_compute. reflexivity.
Defined.

(** C10 on the example tree. *)
Lemma index_js_excluded_everywhere_witness :
  js "index.js" ∉ [js "src"; js "e.md"].
Proof.
  destruct (index_js_excluded_everywhere lower_latin1 example_tree
              (js "/home/u/proyecto")) as (_ & _ & H).
  apply (H ([js "src"; js "e.md"], js "E")).
  vm_compute. do 1 right. left.
Defined.

(** C8 on a new file of sixteen lines: one line is left out. *)
Lemma preview_is_bounded_witness :
  exists text rest,
    showNewFile sixteen_lines
    = [ [LF] ++ js "📋 CONTENIDO DEL NUEVO ARCHIVO:";
        repeat_str (js "-") 40; text ]
      ++ rest ++ [ repeat_str (js "-") 40 ]
    /\ length (split_LF text) <= 15
    /\ rest = [js "... y 1 líneas más"].
Proof.
  destruct (preview_is_bounded [] [] sixteen_lines)
    as (_ & (text & rest & Heq & _ & Hlen & _ & Hmore) & _).
  exists text, rest. split; [exact Heq|]. split; [exact Hlen|].
  rewrite Hmore; [vm_compute; reflexivity|vm_compute; lia].
Defined.

End Witnesses.


(** * Further properties *)

(** ** The response parser *)
Section ParserExtras.
Import Regex.

Lemma exec_Some_first {R} (k : cont R) s r :
  exec k s = Some r ->
  exists i, i <= length s /\ k (drop i s) = Some r
            /\ forall j, j < i -> k (drop j s) = None.
Proof.
  induction s as [|c s IH]; simpl.
  - destruct (k []) eqn:E; [|done]. intros [= <-]. exists 0.
    split; [done|]. split; [done|]. lia.
  - destruct (k (c :: s)) eqn:E.
    + intros [= <-]. exists 0. split; [lia|]. split; [done|]. lia.
    + intros H. destruct (IH H) as (i & Hi & Hk & Hlt). exists (S i).
      split; [lia|]. split; [done|].
      intros [|j] Hj; [done|]. apply Hlt. lia.
Qed.

(** What a match of the label pattern is made of. *)
Lemma fileRegex_Some s cap :
  fileRegex s = Some cap ->
  exists l ws post,
    s = l ++ ws ++ cap ++ post /\ is_label l
    /\ Forall (fun c => is_space c = true) ws
    /\ cap <> [] /\ Forall (fun c => not_LF c = true) cap.
Proof.
  unfold fileRegex. intros H.
  apply lit_ci_Some in H as (l & s1 & -> & Hl & H).
  apply star_greedy_Some in H as (ws & s2 & -> & Hws & H).
  unfold group, plus_greedy in H.
  destruct s2 as [|c t]; [done|]. destruct (not_LF c) eqn:Hc; [|done].
  apply star_greedy_Some in H as (w & post & -> & Hw & H).
  unfold accept in H. injection H as <-.
  exists l, ws, post. split.
  { f_equal. f_equal. simpl. rewrite length_app.
    replace (S (length w + length post) - length post)
      with (S (length w)) by lia.
    simpl. by rewrite take_app_length. }
  split; [by apply is_label_ci|]. split; [done|].
  simpl. rewrite length_app.
  replace (S (length w + length post) - length post)
    with (S (length w)) by lia.
  simpl. rewrite take_app_length. split; [done|]. by constructor.
Qed.

(** What a match of the fence pattern is made of: its capture is the
    interior up to the first closing fence. *)
Lemma codeBlockRegex_Some s body :
  codeBlockRegex s = Some body ->
  exists tag rest,
    s = js "```" ++ tag ++ [LF] ++ body ++ [LF] ++ js "```" ++ rest
    /\ Forall (fun c => is_word c = true) tag
    /\ forall j, j < length body ->
         ~ fence_close_at (drop j (body ++ [LF] ++ js "```" ++ rest)).
Proof.
  unfold codeBlockRegex. intros H.
  apply lit_same_Some in H as (s1 & -> & H).
  apply star_greedy_Some in H as (tag & s2 & -> & Htag & H).
  apply lit_same_Some in H as (s3 & -> & H).
  unfold group in H. rewrite star_lazy_any in H.
  apply exec_Some_first in H as (i & Hi & H & Hfirst).
  apply lit_same_Some in H as (s4 & Hs4 & Hcap).
  unfold accept in Hcap. injection Hcap as <-.
  rewrite length_drop.
  replace (length s3 - (length s3 - i)) with i by lia.
  assert (s3 = take i s3 ++ [LF] ++ js "```" ++ s4) as Hs3.
  { rewrite <- (take_drop i s3) at 1. by rewrite Hs4. }
  exists tag, s4. split; [by rewrite <- Hs3|]. split; [done|].
  rewrite <- Hs3. rewrite length_take. intros j Hj (rest & Hrest).
  specialize (Hfirst j ltac:(lia)). rewrite Hrest in Hfirst.
  change ([LF] ++ js "```" ++ rest) with ((LF :: js "```") ++ rest) in Hfirst.
  by rewrite lit_same_app in Hfirst.
Qed.

Lemma not_LF_Forall cap :
  Forall (fun c => not_LF c = true) cap <-> LF ∉ cap.
Proof.
  rewrite Forall_forall. unfold not_LF. split.
  - intros H Hin. specialize (H _ Hin). by rewrite N.eqb_refl in H.
  - intros H c Hc. destruct (N.eqb_spec c LF) as [->|]; [done|done].
Qed.

(** X1: what [parseAIResponse] returns is in the reply: the path is the
    trimmed text that follows a label and white space and holds no line
    feed; the code block is the interior of a fenced block of the reply. *)
Theorem parseAIResponse_sound response edit :
  parseAIResponse response = Some edit ->
  (exists pre l ws cap post,
      response = pre ++ l ++ ws ++ cap ++ post /\ is_label l
      /\ Forall (fun c => is_space c = true) ws
      /\ cap <> [] /\ (LF ∉ cap) /\ filePath edit = trim cap)
  /\ (exists a tag z,
        response = a ++ js "```" ++ tag ++ [LF] ++ codeBlock edit
                     ++ [LF] ++ js "```" ++ z
        /\ Forall (fun c => is_word c = true) tag).
Proof.
  unfold parseAIResponse.
  destruct (exec fileRegex response) as [cap|] eqn:Hf; [|done].
  destruct (exec codeBlockRegex response) as [body|] eqn:Hc; [|done].
  intros [= <-]. cbn [filePath codeBlock]. split.
  - apply exec_Some in Hf as (i & _ & Hf).
    apply fileRegex_Some in Hf as (l & ws & post & Hs & Hl & Hws & Hne & Hcap).
    exists (take i response), l, ws, cap, post.
    split; [by rewrite <- Hs, take_drop|].
    repeat split; try done. by apply not_LF_Forall.
  - apply exec_Some in Hc as (i & _ & Hc).
    apply codeBlockRegex_Some in Hc as (tag & z & Hs & Htag & _).
    exists (take i response), tag, z.
    split; [by rewrite <- Hs, take_drop|done].
Qed.

Lemma drop_while_head p s c t : drop_while p s = c :: t -> p c = false.
Proof.
  induction s as [|d s IH]; simpl; [done|].
  destruct (p d) eqn:E; [done|]. by intros [= <- <-].
Qed.

Lemma drop_while_incl p s c : c ∈ drop_while p s -> c ∈ s.
Proof.
  induction s as [|d s IH]; simpl; [done|].
  destruct (p d); [|done]. intros H. right. by apply IH.
Qed.

Lemma drop_while_snoc p s c :
  p c = false -> drop_while p (s ++ [c]) = drop_while p s ++ [c].
Proof.
  intros Hc. induction s as [|d s IH]; simpl; [by rewrite Hc|].
  by destruct (p d).
Qed.

Lemma trim_incl s c : c ∈ trim s -> c ∈ s.
Proof.
  unfold trim, trimEnd, trimStart. rewrite elem_of_reverse.
  intros H%drop_while_incl. rewrite elem_of_reverse in H.
  by apply drop_while_incl in H.
Qed.

Lemma trim_head s c t : trim s = c :: t -> is_space c = false.
Proof.
  unfold trim, trimEnd, trimStart.
  destruct (drop_while is_space s) as [|d u] eqn:E; [done|].
  pose proof (drop_while_head _ _ _ _ E) as Hd.
  rewrite reverse_cons, drop_while_snoc, reverse_app by done.
  simpl. by intros [= <- _].
Qed.

Lemma trim_last s u c : trim s = u ++ [c] -> is_space c = false.
Proof.
  unfold trim, trimEnd. intros H.
  apply (f_equal reverse) in H. rewrite reverse_involutive in H.
  rewrite reverse_app in H. simpl in H.
  by apply drop_while_head in H.
Qed.

Lemma trim_blank s : Forall (fun c => is_space c = true) s -> trim s = [].
Proof.
  intros H. unfold trim, trimStart.
  assert (drop_while is_space s = []) as ->; [|done].
  induction H as [|c s Hc _ IH]; simpl; [done|]. by rewrite Hc.
Qed.

(** X2: the path [parseAIResponse] returns holds no line feed and neither
    starts nor ends with white space. *)
Theorem parseAIResponse_path_shape response edit :
  parseAIResponse response = Some edit ->
  (LF ∉ filePath edit)
  /\ (forall c rest, filePath edit = c :: rest -> is_space c = false)
  /\ (forall init c, filePath edit = init ++ [c] -> is_space c = false).
Proof.
  unfold parseAIResponse.
  destruct (exec fileRegex response) as [cap|] eqn:Hf; [|done].
  destruct (exec codeBlockRegex response) as [body|]; [|done].
  intros [= <-]. cbn [filePath].
  apply exec_Some in Hf as (i & _ & Hf).
  apply fileRegex_Some in Hf as (? & ? & ? & _ & _ & _ & _ & Hcap).
  apply not_LF_Forall in Hcap. split; [|split].
  - intros H. by apply Hcap, trim_incl.
  - intros c rest. apply trim_head.
  - intros init c. apply trim_last.
Qed.

(** X3: the code block [parseAIResponse] returns stops at the first closing
    fence: no line feed followed by three backquotes occurs inside it. *)
Theorem parseAIResponse_code_has_no_fence response edit :
  parseAIResponse response = Some edit ->
  forall j, ~ fence_close_at (drop j (codeBlock edit)).
Proof.
  unfold parseAIResponse.
  destruct (exec fileRegex response) as [cap|]; [|done].
  destruct (exec codeBlockRegex response) as [body|] eqn:Hc; [|done].
  intros [= <-]. cbn [codeBlock].
  apply exec_Some in Hc as (i & _ & Hc).
  apply codeBlockRegex_Some in Hc as (tag & z & _ & _ & Hfirst).
  intros j (rest & Hrest).
  assert (j < length body) as Hj.
  { destruct (decide (j < length body)); [done|].
    rewrite drop_ge in Hrest by lia. done. }
  apply (Hfirst j Hj). exists (rest ++ [LF] ++ js "```" ++ z).
  rewrite drop_app_le by lia. rewrite Hrest.
  by rewrite <- !app_assoc.
Qed.

Lemma fileRegex_after_space l ws cap post :
  is_label l ->
  Forall (fun c => is_space c = true) ws ->
  (exists c cap', cap = c :: cap' /\ is_space c = false) ->
  LF ∉ cap ->
  (post = [] \/ exists post', post = LF :: post') ->
  fileRegex (l ++ ws ++ cap ++ post) = Some cap.
Proof.
  intros Hl Hws (c & cap' & -> & Hc) Hlf Hpost. unfold fileRegex.
  rewrite lit_ci_app by by apply is_label_ci.
  apply star_greedy_run; [done|done|].
  by apply capture_line.
Qed.

Lemma exec_fileRegex_first response pre s cap :
  response = pre ++ s ->
  (forall j, j < length pre -> ~ label_at (drop j response)) ->
  fileRegex s = Some cap ->
  exec fileRegex response = Some cap.
Proof.
  intros -> Hpre Hs. apply exec_at; [done|].
  intros j Hj. destruct (fileRegex (drop j (pre ++ s))) eqn:E; [|done].
  destruct (Hpre j Hj). by eapply fileRegex_label.
Qed.

Lemma exec_codeBlockRegex_first response a tag body z :
  first_fenced_block response a tag body z ->
  exec codeBlockRegex response = Some body.
Proof.
  intros (-> & Htag & Ha & Hbody).
  apply exec_at; [by apply codeBlockRegex_at|].
  intros j Hj.
  destruct (codeBlockRegex (drop j _)) eqn:E; [|done].
  destruct (Ha j Hj). by eapply codeBlockRegex_open.
Qed.

(** X4: the path is the trimmed text that starts at the first character
    after the first label that is not white space and runs to the end of
    that character's line, also when line feeds lie between the label and
    that character. *)
Theorem parseAIResponse_path_after_white_space
    response pre l ws cap post a tag body z :
  label_then_text response pre l ws cap post ->
  first_fenced_block response a tag body z ->
  parseAIResponse response
  = Some {| filePath := trim cap; codeBlock := body |}.
Proof.
  intros (Hr & Hl & Hpre & Hws & Hcap & Hlf & Hpost) Hblock.
  unfold parseAIResponse.
  rewrite (exec_fileRegex_first response pre _ cap Hr Hpre)
    by by apply fileRegex_after_space.
  by rewrite (exec_codeBlockRegex_first _ _ _ _ _ Hblock).
Qed.

Lemma star_greedy_total {R} cls (k : cont R) s :
  (forall x, exists r, k x = Some r) ->
  exists r, star_greedy cls k s = Some r.
Proof.
  intros Hk. induction s as [|c s [r IH]]; simpl; [apply Hk|].
  destruct (cls c); [|apply Hk]. rewrite IH. by eexists.
Qed.

Lemma star_greedy_complete {R} cls (k : cont R) w rest r :
  Forall (fun c => cls c = true) w ->
  k rest = Some r ->
  exists r', star_greedy cls k (w ++ rest) = Some r'.
Proof.
  intros Hw Hk. induction Hw as [|c w Hc _ [r' IH]]; simpl.
  - destruct rest as [|c rest]; simpl; [by eexists|].
    destruct (cls c); [|by eexists].
    destruct (star_greedy cls k rest); by eexists.
  - rewrite Hc, IH. by eexists.
Qed.

(** When only white space follows the label, the pattern still matches if
    some of it is not a line feed, and what it captures is white space. *)
Lemma fileRegex_blank l ws :
  is_label l ->
  Forall (fun c => is_space c = true) ws ->
  (exists c, c ∈ ws /\ c <> LF) ->
  exists cap, fileRegex (l ++ ws) = Some cap /\ trim cap = [].
Proof.
  intros Hl Hws (c & Hc & Hne).
  assert (exists cap, fileRegex (l ++ ws) = Some cap) as [cap Hcap].
  { unfold fileRegex. rewrite lit_ci_app by by apply is_label_ci.
    apply list_elem_of_split in Hc as (u & v & ->).
    apply Forall_app in Hws as [Hu _].
    assert (exists r, group (plus_greedy not_LF) accept (c :: v) = Some r)
      as [r Hr].
    { unfold group, plus_greedy, not_LF.
      rewrite (proj2 (N.eqb_neq c LF) Hne). simpl.
      apply star_greedy_total. intros x. by eexists. }
    by apply (star_greedy_complete _ _ u (c :: v) r). }
  exists cap. split; [done|].
  apply fileRegex_Some in Hcap as (l' & ws' & post & Hs & Hl' & _ & _ & _).
  apply trim_blank.
  apply app_inj_1 in Hs as [_ Hs].
  2:{ unfold is_label in *.
      by rewrite <- (Forall2_length _ _ _ Hl), <- (Forall2_length _ _ _ Hl'). }
  subst ws. apply Forall_app in Hws as [_ Hws].
  by apply Forall_app in Hws as [Hws _].
Qed.

(** X6: when only white space follows the first label, to the end of the
    reply, and some of it is not a line feed, the parse succeeds with an
    empty path. *)
Theorem parseAIResponse_empty_path response pre l ws a tag body z :
  label_then_blank response pre l ws ->
  (exists c, c ∈ ws /\ c <> LF) ->
  first_fenced_block response a tag body z ->
  parseAIResponse response = Some {| filePath := []; codeBlock := body |}.
Proof.
  intros (Hr & Hl & Hpre & Hws) Hc Hblock.
  destruct (fileRegex_blank l ws Hl Hws Hc) as (cap & Hcap & Htrim).
  unfold parseAIResponse.
  rewrite (exec_fileRegex_first response pre _ cap Hr Hpre Hcap).
  by rewrite (exec_codeBlockRegex_first _ _ _ _ _ Hblock), Htrim.
Qed.

Lemma is_label_upper : is_label (js "ARCHIVO:").
Proof. unfold is_label, same_letter. vm_compute. repeat constructor. Qed.

Lemma fence_close_straddle code t :
  (forall j, ~ fence_close_at (drop j code)) ->
  forall j, j < length code -> ~ fence_close_at (drop j (code ++ LF :: t)).
Proof.
  intros Hcode j Hj (rest & Hrest). apply (Hcode j).
  rewrite drop_app_le in Hrest by lia.
  assert (drop j code <> []) as Hne.
  { intros E. apply (f_equal length) in E. rewrite length_drop in E.
    simpl in E. lia. }
  destruct (drop j code) as [|d1 [|d2 [|d3 [|d4 d]]]]; [done| | | |];
    vm_compute in Hrest; try (injection Hrest as; discriminate).
  injection Hrest as -> -> -> -> _. by exists d.
Qed.

Lemma codeBlockRegex_backquote s r :
  codeBlockRegex s = Some r -> exists t, s = 96%N :: t.
Proof.
  unfold codeBlockRegex. intros H.
  apply lit_same_Some in H as (rest & -> & _). by eexists.
Qed.

(** X5: a reply in the format the prompt asks for parses to its path,
    trimmed, and to its code: the path must hold a character that is not
    white space, no line feed and no backquote, the language tag only word
    characters, and the code no line feed followed by three backquotes. *)
Theorem parseAIResponse_format_reply path lang code explanation :
  LF ∉ path -> 96%N ∉ path ->
  (exists c, c ∈ path /\ is_space c = false) ->
  Forall (fun c => is_word c = true) lang ->
  (forall j, ~ fence_close_at (drop j code)) ->
  parseAIResponse (format_reply path lang code explanation)
  = Some {| filePath := trim path; codeBlock := code |}.
Proof.
  intros Hlf Hbq (c & Hc & Hsp) Hlang Hcode.
  set (z := [LF; LF] ++ js "EXPLICACIÓN:" ++ [LF] ++ explanation).
  set (block := js "```" ++ lang ++ [LF] ++ code ++ [LF] ++ js "```" ++ z).
  assert (format_reply path lang code explanation
          = [] ++ js "ARCHIVO:" ++ (32%N :: path) ++ LF :: block) as Hlabel
    by (vm_compute; reflexivity).
  assert (format_reply path lang code explanation
          = (js "ARCHIVO: " ++ path ++ [LF]) ++ block) as Hblock
    by (unfold format_reply, block, z; by rewrite <- !app_assoc).
  unfold parseAIResponse.
  rewrite (exec_fileRegex_first _ [] _ (drop_while is_space (32%N :: path))
             Hlabel).
  2:{ simpl. lia. }
  2:{ apply fileRegex_at.
      - apply is_label_upper.
      - rewrite not_elem_of_cons. split; [done|done].
      - right. by eexists.
      - exists c. split; [by right|done]. }
  rewrite Hblock. clear Hlabel Hblock.
  assert (96%N ∉ js "ARCHIVO: " ++ path ++ [LF]) as Hnone.
  { rewrite !elem_of_app. intros [Hin|[Hin|Hin]]; [|done|].
    - apply list_elem_of_In in Hin. vm_compute in Hin.
      repeat (destruct Hin as [Hin|Hin]; [discriminate Hin|]). done.
    - apply list_elem_of_singleton in Hin. discriminate Hin. }
  revert Hnone. generalize (js "ARCHIVO: " ++ path ++ [LF]) as a.
  intros a Hnone.
  rewrite (exec_at codeBlockRegex _ block code).
  - by rewrite trim_drop_while.
  - apply codeBlockRegex_at; [done|]. by apply fence_close_straddle.
  - intros j Hj.
    destruct (codeBlockRegex (drop j _)) eqn:E; [|done].
    apply codeBlockRegex_backquote in E as (t & E).
    rewrite drop_app_le in E by lia. exfalso. apply Hnone.
    destruct (drop j a) as [|d ds] eqn:Ed.
    + apply (f_equal length) in Ed. rewrite length_drop in Ed.
      simpl in Ed. lia.
    + injection E as -> _. rewrite <- (take_drop j a), Ed.
      apply elem_of_app. right. left.
Qed.

End ParserExtras.

(** X1 at the reply of the example. *)
Lemma parseAIResponse_sound_witness :
  (exists pre l ws cap post,
      example_reply = pre ++ l ++ ws ++ cap ++ post /\ is_label l
      /\ Forall (fun c => is_space c = true) ws
      /\ cap <> [] /\ (LF ∉ cap) /\ filePath example_edit = trim cap)
  /\ (exists a tag z,
        example_reply = a ++ js "```" ++ tag ++ [LF] ++ codeBlock example_edit
                          ++ [LF] ++ js "```" ++ z
        /\ Forall (fun c => is_word c = true) tag).
Proof.
  apply (parseAIResponse_sound example_reply example_edit).
  vm_compute. reflexivity.
Defined.

(** X2 at the reply of the example. *)
Lemma parseAIResponse_path_shape_witness :
  (LF ∉ filePath example_edit)
  /\ (forall c rest, filePath example_edit = c :: rest -> is_space c = false)
  /\ (forall init c,
        filePath example_edit = init ++ [c] -> is_space c = false).
Proof.
  apply (parseAIResponse_path_shape example_reply example_edit).
  vm_compute. reflexivity.
Defined.

(** X3 at the reply of the example. *)
Lemma parseAIResponse_code_has_no_fence_witness :
  ~ fence_close_at (drop 2 (codeBlock example_edit)).
Proof.
  apply (parseAIResponse_code_has_no_fence example_reply example_edit).
  vm_compute. reflexivity.
Defined.

(** X4 at a reply whose path is two lines below the label. *)
Lemma parseAIResponse_path_after_white_space_witness :
  parseAIResponse next_line_reply
  = Some {| filePath := js "src/b.js"; codeBlock := js "x" |}.
Proof.
  assert (trim (js "src/b.js") = js "src/b.js") as <-
    by (vm_compute; reflexivity).
  apply (parseAIResponse_path_after_white_space next_line_reply
           [] (js "ARCHIVO:") [LF; LF; 32%N; 32%N] (js "src/b.js")
           (drop 20 next_line_reply)
           (take 21 next_line_reply) [] (js "x") []).
  - split; [vm_compute; reflexivity|]. split; [apply is_label_upper|].
    split; [simpl; lia|]. split; [repeat constructor|].
    split; [eexists _, _; split; vm_compute; reflexivity|].
    split; [apply not_elem_of_forallb; vm_compute; reflexivity|].
    right. eexists. vm_compute. reflexivity.
  - split; [vm_compute; reflexivity|]. split; [constructor|]. split.
    + apply (none_before_spec _ _ _ _ fence_open_atb_complete).
      vm_compute. reflexivity.
    + apply (none_before_spec _ _ _ _ fence_close_atb_complete).
      vm_compute. reflexivity.
Defined.

(** X5 at a path, a tag and two lines of code. *)
Lemma parseAIResponse_format_reply_witness :
  parseAIResponse
    (format_reply (js " src/a.txt ") (js "js") (js "let x;" ++ [LF] ++ js "x")
                  (js "..."))
  = Some {| filePath := js "src/a.txt";
            codeBlock := js "let x;" ++ [LF] ++ js "x" |}.
Proof.
  assert (trim (js " src/a.txt ") = js "src/a.txt") as <-
    by (vm_compute; reflexivity).
  apply parseAIResponse_format_reply.
  - apply not_elem_of_forallb. vm_compute. reflexivity.
  - apply not_elem_of_forallb. vm_compute. reflexivity.
  - exists 115%N. split; [|vm_compute; reflexivity].
    apply elem_of_existsb. vm_compute. reflexivity.
  - vm_compute. repeat constructor.
  - apply (none_anywhere _ _ _ fence_close_atb_complete).
    vm_compute. reflexivity.
Defined.

(** X6 at a reply that ends with the label and a space. *)
Lemma parseAIResponse_empty_path_witness :
  parseAIResponse trailing_label_reply
  = Some {| filePath := []; codeBlock := js "x" |}.
Proof.
  apply (parseAIResponse_empty_path trailing_label_reply
           (take 10 trailing_label_reply) (js "ARCHIVO:") [32%N]
           [] [] (js "x") (drop 9 trailing_label_reply)).
  - split; [vm_compute; reflexivity|]. split; [apply is_label_upper|].
    split; [|repeat constructor].
    apply (none_before_spec _ _ _ _ label_atb_complete).
    vm_compute. reflexivity.
  - exists 32%N. split; [left|discriminate].
  - split; [vm_compute; reflexivity|]. split; [constructor|]. split.
    + simpl. lia.
    + apply (none_before_spec _ _ _ _ fence_close_atb_complete).
      vm_compute. reflexivity.
Defined.


Example getProjectContext_noisy_tree :
  getProjectContext lower_latin1 noisy_tree (js "/p") (js "/p")
  = (file_header (js "docs/a.md") ++ js "A" ++ file_footer (js "docs/a.md"),
     [ error_readdir (js "/p/docs/vault") (js "EACCES") ]).
Proof. vm_compute. reflexivity. Qed.

(** ** The project context collector *)
Section CollectorExtras.
Variable toLowerCase : jsstring -> jsstring.

Lemma silently_skipped_contribution name e dirPath basePath :
  silently_skipped toLowerCase name e = true ->
  contribution toLowerCase dirPath basePath (name, e) = ([], []).
Proof.
  unfold silently_skipped, contribution, visit.
  destruct (includes ignoredItems name); [done|]. simpl.
  destruct e as [read|sub| |]; try done.
  intros ->. done.
Qed.

(** X7: entries with an ignored name, files with an ignored extension and
    entries that are neither file nor directory leave no trace: the walk of
    the tree without them, at every depth, returns the same context and
    writes the same console lines.  In particular such an entry is never
    read, so that it gives no warning when it is unreadable. *)
Theorem skipped_entries_leave_no_trace dir dirPath basePath :
  getProjectContext toLowerCase
    (without_entries (silently_skipped toLowerCase) dir) dirPath basePath
  = getProjectContext toLowerCase dir dirPath basePath.
Proof.
  revert dirPath.
  induction dir as [items IH|message] using listing_ind';
    intros dirPath; [|done].
  cbn [without_entries]. rewrite !getProjectContext_Listed.
  set (drop := silently_skipped toLowerCase) in *.
  assert (Forall (fun it : jsstring * entry =>
    map (contribution toLowerCase dirPath basePath)
        (if drop it.1 it.2 then []
         else match it.2 with
              | Directory sub => [(it.1, Directory (without_entries drop sub))]
              | e => [(it.1, e)]
              end)
    = if drop it.1 it.2 then []
      else [contribution toLowerCase dirPath basePath it]) items) as Hall.
  { eapply Forall_impl; [exact IH|]. intros [item e] He. simpl in *.
    destruct (drop item e); [done|].
    destruct e as [r|sub| |]; try done.
    simpl. f_equal. unfold contribution, visit.
    destruct (includes ignoredItems item); [done|].
    by rewrite He. }
  f_equal.
  - apply concat_map_flat_map. eapply Forall_impl; [exact Hall|].
    intros [item e] He. simpl in *.
    rewrite <- (map_map (contribution toLowerCase dirPath basePath) fst).
    rewrite He.
    destruct (drop item e) eqn:E; simpl; [|by rewrite app_nil_r].
    by rewrite silently_skipped_contribution.
  - apply concat_map_flat_map. eapply Forall_impl; [exact Hall|].
    intros [item e] He. simpl in *.
    rewrite <- (map_map (contribution toLowerCase dirPath basePath) snd).
    rewrite He.
    destruct (drop item e) eqn:E; simpl; [|by rewrite app_nil_r].
    by rewrite silently_skipped_contribution.
Qed.

(** X8: a listing is walked piece by piece: the context and the console
    of two listings put end to end are those of the first followed by those
    of the second. *)
Theorem getProjectContext_app items1 items2 dirPath basePath :
  getProjectContext toLowerCase (Listed (items1 ++ items2)) dirPath basePath
  = ((getProjectContext toLowerCase (Listed items1) dirPath basePath).1
       ++ (getProjectContext toLowerCase (Listed items2) dirPath basePath).1,
     (getProjectContext toLowerCase (Listed items1) dirPath basePath).2
       ++ (getProjectContext toLowerCase (Listed items2) dirPath basePath).2).
Proof.
  rewrite !getProjectContext_Listed. cbn [fst snd].
  by rewrite !map_app, !concat_app.
Qed.

End CollectorExtras.

(** ** The loop *)
Section ReplExtras.
Variable toLowerCase : jsstring -> jsstring.
Variable env : Env.



(** X12: when the remote call fails, the turn is given up: files,
    directories and clipboard are as they were, the process keeps running and
    prompts again; the failure is written twice, by [askAI] and by the
    handler of the line. *)
Theorem remote_failure_is_recoverable input t w message :
  request toLowerCase input ->
  (forall prompt, reply t prompt = inr message) ->
  same_store w (on_line toLowerCase env input t w)
  /\ same_process w (on_line toLowerCase env input t w)
  /\ prompts (on_line toLowerCase env input t w) = S (prompts w)
  /\ console (on_line toLowerCase env input t w)
     = console w
       ++ [ [LF] ++ js "🔍 Analizando proyecto..." ]
       ++ (getProjectContext toLowerCase (project t) (cwd env) (cwd env)).2
       ++ [ js "🧠 Consultando a la IA...";
            js "❌ Error al consultar la IA: " ++ message;
            js "❌ Error al procesar la petición: " ++ message ].
Proof.
  intros [Hx Hb]%request_tests Hreply. unfold on_line. rewrite Hx, Hb.
  destruct (getProjectContext _ _ _ _) as [ctx walked].
  unfold askAI. rewrite Hreply. unfold same_store, same_process.
  cbn [prompt log logs files directories clipboard console prompts browser
       browser_closes exit_code fst snd].
  repeat split. rewrite <- !app_assoc. reflexivity.
Qed.

Lemma confirm_files b edit answer w :
  files (confirm toLowerCase env b edit answer w)
  = if str_eqb (trim (toLowerCase answer)) (js "s")
       || str_eqb (trim (toLowerCase answer)) (js "si")
       || str_eqb (trim (toLowerCase answer)) (js "sí")
    then match mkdir_error env (dirname (filePath edit)),
               writeFile_error env (filePath edit) with
         | None, None => <[filePath edit := codeBlock edit]> (files w)
         | _, _ => files w
         end
    else files w.
Proof.
  unfold confirm. destruct (_ || _ || _); [|destruct (_ || _)]; simpl.
  - unfold applyEdit. destruct (mkdir_error env _); [done|].
    by destruct (writeFile_error env _).
  - unfold copyToClipboard. by destruct (pbcopy env), (xclip env).
  - done.
Qed.

Lemma previewAndConfirm_files edit answer w :
  files (previewAndConfirm toLowerCase env edit answer w)
  = files (confirm toLowerCase env true edit answer w).
Proof.
  unfold previewAndConfirm. cbn [files log].
  destruct (files w !! filePath edit); by rewrite !confirm_files.
Qed.

Lemma on_close_store w : same_store w (on_close w).
Proof. unfold on_close. simpl. by destruct (browser w). Qed.


Lemma confirm_clipboard b edit answer w :
  clipboard (confirm toLowerCase env b edit answer w)
  = if negb (str_eqb (trim (toLowerCase answer)) (js "s")
             || str_eqb (trim (toLowerCase answer)) (js "si")
             || str_eqb (trim (toLowerCase answer)) (js "sí"))
       && (str_eqb (trim (toLowerCase answer)) (js "c")
           || str_eqb (trim (toLowerCase answer)) (js "copiar"))
       && (pbcopy env || xclip env)
    then Some (codeBlock edit) else clipboard w.
Proof.
  unfold confirm. destruct (_ || _ || _); [|destruct (_ || _)]; simpl.
  - apply applyEdit_store.
  - unfold copyToClipboard. by destruct (pbcopy env), (xclip env).
  - done.
Qed.

Lemma previewAndConfirm_clipboard edit answer w :
  clipboard (previewAndConfirm toLowerCase env edit answer w)
  = if negb (str_eqb (trim (toLowerCase answer)) (js "s")
             || str_eqb (trim (toLowerCase answer)) (js "si")
             || str_eqb (trim (toLowerCase answer)) (js "sí"))
       && (str_eqb (trim (toLowerCase answer)) (js "c")
           || str_eqb (trim (toLowerCase answer)) (js "copiar"))
       && (pbcopy env || xclip env)
    then Some (codeBlock edit) else clipboard w.
Proof.
  unfold previewAndConfirm. cbn [files log].
  destruct (files w !! filePath edit); by rewrite confirm_clipboard.
Qed.

(** X14: a turn changes the clipboard only by a confirmed copy: after any
    line the clipboard is as it was, or the reply parsed to an edit, the
    confirmation was [c] or [copiar], one of the two tools is installed, and
    the clipboard holds the code block. *)
Theorem turn_copies_only_on_request input t w :
  clipboard (on_line toLowerCase env input t w) = clipboard w
  \/ exists response edit,
       reply t (megaPrompt (trim input)
                  (getProjectContext toLowerCase (project t)
                     (cwd env) (cwd env)).1)
       = inl response
       /\ parseAIResponse response = Some edit
       /\ trim (toLowerCase (answer t)) ∈ [js "c"; js "copiar"]
       /\ pbcopy env || xclip env = true
       /\ clipboard (on_line toLowerCase env input t w)
          = Some (codeBlock edit).
Proof.
  unfold on_line.
  destruct (_ || _); [left; apply (on_close_store (log _ w))|].
  destruct (str_eqb (trim input) []); [by left|].
  destruct (getProjectContext _ _ _ _) as [ctx walked]. cbn [fst].
  unfold askAI. destruct (reply t _) as [response|message] eqn:Hr;
    [|by left].
  destruct (parseAIResponse response) as [edit|] eqn:Hp; [|by left].
  match goal with
  | |- context [previewAndConfirm _ _ _ _ ?w3] =>
    assert (clipboard w3 = clipboard w) as Hw3 by reflexivity;
    revert Hw3; generalize w3; intros w' Hw3
  end.
  rewrite previewAndConfirm_clipboard, Hw3.
  destruct (_ || _ || _); [by left|].
  destruct (_ || _) eqn:Hc; [|by left].
  destruct (pbcopy env || xclip env) eqn:Ht; [|by left].
  right. exists response, edit. repeat split; try done.
  by apply copy_test.
Qed.

(** X15: repeating a turn leaves the files as the first pass left them:
    the same line, with the same reply and the same answer, handled twice,
    gives the files it gives handled once. *)
Theorem turn_is_idempotent_on_files input t w :
  files (on_line toLowerCase env input t (on_line toLowerCase env input t w))
  = files (on_line toLowerCase env input t w).
Proof.
  assert ((forall w0, files (on_line toLowerCase env input t w0) = files w0)
          \/ exists path data, forall w0,
               files (on_line toLowerCase env input t w0)
               = <[path := data]> (files w0)) as [H|(path & data & H)].
  { unfold on_line.
    destruct (_ || _); [left; intros w0; apply (on_close_store (log _ w0))|].
    destruct (str_eqb (trim input) []); [by left|].
    destruct (getProjectContext _ _ _ _) as [ctx walked].
    unfold askAI. destruct (reply t _) as [response|message]; [|by left].
    destruct (parseAIResponse response) as [edit|]; [|by left].
    destruct (str_eqb (trim (toLowerCase (answer t))) (js "s")
              || str_eqb (trim (toLowerCase (answer t))) (js "si")
              || str_eqb (trim (toLowerCase (answer t))) (js "sí")) eqn:Ha.
    2:{ left. intros w0.
        by rewrite previewAndConfirm_files, confirm_files, Ha. }
    destruct (mkdir_error env (dirname (filePath edit))) eqn:Hm.
    { left. intros w0.
      by rewrite previewAndConfirm_files, confirm_files, Ha, Hm. }
    destruct (writeFile_error env (filePath edit)) eqn:Hw.
    { left. intros w0.
      by rewrite previewAndConfirm_files, confirm_files, Ha, Hm, Hw. }
    right. exists (filePath edit), (codeBlock edit). intros w0.
    by rewrite previewAndConfirm_files, confirm_files, Ha, Hm, Hw. }
  - by rewrite !H.
  - rewrite !H. apply insert_insert_eq.
Qed.


End ReplExtras.

(** X12 on a request whose remote call times out. *)
Lemma remote_failure_is_recoverable_witness :
  same_store (fresh ∅)
    (on_line lower_latin1 env_ok (js "hola") (failing_turn (js "timeout"))
             (fresh ∅))
  /\ prompts
       (on_line lower_latin1 env_ok (js "hola") (failing_turn (js "timeout"))
                (fresh ∅)) = 1.
Proof.
  destruct (remote_failure_is_recoverable lower_latin1 env_ok (js "hola")
              (failing_turn (js "timeout")) (fresh ∅) (js "timeout"))
    as (Hs & _ & Hp & _).
  - split.
    + intros [H|H]; vm_compute in H; discriminate H.
    + vm_compute. discriminate.
  - intros prompt. reflexivity.
  - split; [exact Hs|exact Hp].
Defined.




(** ** The preview presenter *)
Section PreviewExtras.

Lemma split_LF_first s :
  exists rest, split_LF s = take_while not_LF s :: rest.
Proof.
  induction s as [|c s [rest IH]]; simpl; [by exists []|].
  unfold not_LF at 1. destruct (c =? LF)%N; simpl; [by eexists|].
  rewrite IH. by eexists.
Qed.

Lemma numbered_first limit line rest :
  numbered (take (S limit) (line :: rest))
  = (js "1: " ++ line) :: imap (fun i l => number_to_string (S i + 1)
                                             ++ js ": " ++ l)
                               (take limit rest).
Proof. done. Qed.

(** X19: [showDiff] never shows an empty side: the first line of the old
    content and the first line of the new content are always printed with
    the number 1, also when the content is empty; the whole preview has
    between 9 and 29 lines. *)
Theorem showDiff_shows_line_one oldContent newContent :
  showDiff oldContent newContent !! 4
  = Some (js "1: " ++ take_while not_LF oldContent)
  /\ js "1: " ++ take_while not_LF newContent
     ∈ showDiff oldContent newContent
  /\ 9 <= length (showDiff oldContent newContent) <= 29.
Proof.
  unfold showDiff.
  destruct (split_LF_first oldContent) as [oldRest Ho].
  destruct (split_LF_first newContent) as [newRest Hn].
  rewrite Ho, Hn, !numbered_first.
  split; [done|]. split.
  - rewrite !elem_of_app. do 4 right. left. left.
  - rewrite !length_app. cbn [length]. rewrite !length_imap, !length_take.
    unfold omitted. cbn [length].
    split; [lia|]. do 2 case_bool_decide; cbn [length]; lia.
Qed.

End PreviewExtras.
